(** * The service core of the blog backend: [server/core/ice-service.js]

    A shallow embedding of the [Service] class: the derivation of the
    transport routes from the action descriptors ([publishActions]), the
    ownership check ([checkModelOwner]), the conversion to JSON with a
    property filter ([toJSON]), the filters of a query ([applyFilters]),
    the population of referenced entities ([populateModels]) and the
    resolution of entities from identifiers or codes ([resolveID],
    [resolveModel]); and of the [ServiceLoader] that follows it in the
    file: the handlers it binds to socket events and to the resolvers of
    the query protocol ([registerSockets], [registerGraphQLSchema]).

    How the JavaScript is read:
    - an object that is enumerated ([_.forIn]) is an association list in
      the order of enumeration; an object that is only indexed is a finite
      map of its own properties;
    - where an object is indexed by a key that comes with the data or
      with a schema, an identifier of an entity ([populatedDocs[_id]],
      [docsObj[doc.id]]), a field of a population schema ([doc[field]])
      or the name in a resolver ([service.actions[resolver]]), what it
      inherits is looked at as well: a plain object inherits the members
      of [Object.prototype], and an assignment under [__proto__] goes to
      the setter of the prototype;
    - an assignment to a property of an object that outlives the call is
      state passing: the function returns the object as it is afterwards;
    - numbers are integers, as the identifiers of the store are;
    - a promise is the value it resolves with or the error it is rejected
      with, together with the lookups and calls made on the way; the
      callbacks of [Promise.all] run in the order of their promises;
    - the documents handed to [populateModels] are distinct objects;
    - [_.pick] and the comparisons of [==] that convert their operands are
      parameters ([library]); the role names of [core/constants] are
      parameters ([constants]). *)

From stdpp Require Import gmap strings list pretty.

Open Scope string_scope.

Set Warnings "-register-all".

(* ===================================================================== *)
(** * Constants and errors *)
(* ===================================================================== *)

(** [core/constants]: the two role names the service core reads. *)
Record constants := {
  ROLE_USER  : string;
  ROLE_ADMIN : string
}.

(** [core/errors]: the status of a [RequestError]. *)
Inductive status := BAD_REQUEST | FORBIDDEN.

(** The error types of [core/constants] raised by the service core. *)
Inductive error_type :=
  | INVALID_CODE
  | MODEL_NOT_FOUND
  | ERR_ONLY_OWNER_CAN_EDIT_AND_DELETE.

(** What a promise of the service core can be rejected with: a
    [RequestError] of its own, the [TypeError] of the runtime, or the
    failure of a collaborator (the store, a called action). *)
Inductive error :=
  | RequestError (st : status) (ty : error_type) (msg : string)
  | TypeError (msg : string)
  | External (cause : string).

Inductive result (A : Type) :=
  | Ok (a : A)
  | Err (e : error).
Arguments Ok {A} a.
Arguments Err {A} e.

(* ===================================================================== *)
(** * JavaScript values *)
(* ===================================================================== *)

(** The values held by request parameters and entity fields.  Numbers are
    the integers (identifiers are counters or strings); an object is the
    list of its own properties in enumeration order.  [VNative name] is
    what a plain object inherits under [name] from [Object.prototype]: one
    of its functions, or, for [__proto__], [Object.prototype] itself. *)
Inductive value :=
  | VUndef
  | VNull
  | VBool (b : bool)
  | VNum (n : Z)
  | VStr (s : string)
  | VArr (l : list value)
  | VObj (fields : list (string * value))
  | VNative (name : string).

(** An entity in its plain JSON form: the properties of an object. *)
Abbreviation entity := (list (string * value)).

(** The operations of lodash and of the language that are taken as given:
    [_.pick(object, paths)], the outcome of [x == y] where it goes
    through a conversion (operands of different types, or objects), and
    [String(v)] where it depends on the number format or on the engine (a
    number beyond the safe integers, a built-in function). *)
Record library := {
  pick      : entity -> value -> entity;
  coerce_eq : value -> value -> bool;
  string_of : value -> string
}.

(** [ToBoolean]. *)
Definition truthy (v : value) : bool :=
  match v with
  | VUndef | VNull => false
  | VBool b => b
  | VNum n => negb (n =? 0)%Z
  | VStr s => negb (String.eqb s "")
  | VArr _ | VObj _ | VNative _ => true
  end.

(** [v == null]. *)
Definition is_nullish (v : value) : bool :=
  match v with
  | VUndef | VNull => true
  | _ => false
  end.

Definition isString (v : value) : bool :=
  match v with VStr _ => true | _ => false end.

Definition isArray (v : value) : bool :=
  match v with VArr _ => true | _ => false end.

(** [x == y]: [null] and [undefined] equal each other and nothing else;
    primitives of one type are compared by value; the rest is left to
    [coerce_eq]. *)
Definition loose_eq (L : library) (x y : value) : bool :=
  match x, y with
  | (VUndef | VNull), (VUndef | VNull) => true
  | (VUndef | VNull), _ => false
  | _, (VUndef | VNull) => false
  | VBool a, VBool b => Bool.eqb a b
  | VNum a, VNum b => (a =? b)%Z
  | VStr a, VStr b => String.eqb a b
  | _, _ => coerce_eq L x y
  end.

(** [obj[key]] on the own properties of an object. *)
Fixpoint obj_get (o : entity) (key : string) : value :=
  match o with
  | [] => VUndef
  | (k, v) :: r => if String.eqb k key then v else obj_get r key
  end.

(** [obj[key] = v]: overwrite the property in place, or add it last. *)
Fixpoint obj_set (o : entity) (key : string) (v : value) : entity :=
  match o with
  | [] => [(key, v)]
  | (k, w) :: r =>
      if String.eqb k key then (k, v) :: r else (k, w) :: obj_set r key v
  end.

(** The names under which a plain object inherits from
    [Object.prototype]. *)
Definition prototype_names : list string :=
  [ "constructor"; "__defineGetter__"; "__defineSetter__"; "hasOwnProperty";
    "__lookupGetter__"; "__lookupSetter__"; "isPrototypeOf";
    "propertyIsEnumerable"; "toString"; "valueOf"; "__proto__";
    "toLocaleString" ].

(** [Object.prototype[key]] as a plain object sees it. *)
Definition object_prototype (key : string) : option value :=
  if existsb (String.eqb key) prototype_names then Some (VNative key)
  else None.

(** The object has an own property of this name. *)
Definition has_own (o : entity) (key : string) : bool :=
  existsb (fun kv => String.eqb kv.1 key) o.

(** [doc[field]] on a plain object: its own property, or else what it
    inherits from [Object.prototype]. *)
Definition get_field (doc : entity) (field : string) : value :=
  if has_own doc field then obj_get doc field
  else default VUndef (object_prototype field).

(** [doc[field] = v] on a plain object: the own property is overwritten
    or added.  Under [__proto__], unless the object owns a property of
    that name, the assignment goes to the setter that the object
    inherits and adds no property (the prototype that it may set is not
    followed any further). *)
Definition set_field (doc : entity) (field : string) (v : value) : entity :=
  if String.eqb field "__proto__" && negb (has_own doc field) then doc
  else obj_set doc field v.

(** The [length] of what is inherited: the number of parameters of the
    function; [Object.prototype] itself has none. *)
Definition native_length (name : string) : value :=
  if existsb (String.eqb name) ["__defineGetter__"; "__defineSetter__"]
  then VNum 2
  else if existsb (String.eqb name)
            ["constructor"; "hasOwnProperty"; "__lookupGetter__";
             "__lookupSetter__"; "isPrototypeOf"; "propertyIsEnumerable"]
  then VNum 1
  else if existsb (String.eqb name) ["toString"; "valueOf"; "toLocaleString"]
  then VNum 0
  else VUndef.

(** [v.length]: the length of a string or of an array, the property of an
    object, the number of parameters of a function, [undefined] on a
    number or a boolean. *)
Definition get_length (v : value) : value :=
  match v with
  | VStr s => VNum (Z.of_nat (String.length s))
  | VArr l => VNum (Z.of_nat (length l))
  | VObj fs => obj_get fs "length"
  | VNative name => native_length name
  | _ => VUndef
  end.

(** [String(v)] on the elements of an array that is joined: [null] and
    [undefined] give the empty string. *)
Definition join_comma (ss : list string) : string :=
  match ss with
  | [] => ""
  | s :: r => fold_left (fun acc x => acc ++ "," ++ x) r s
  end.

(** The integers that a number holds exactly: up to 2^53 either way. *)
Definition safe_integer (n : Z) : bool := (Z.abs n <=? 2 ^ 53)%Z.

(** [ToString], as used when a value is a property key.  A safe integer
    prints in decimal; beyond, the digits and the exponent form are those
    of the number format, and the text of a function is that of the
    engine: both are left to [string_of]. *)
Fixpoint to_key (L : library) (v : value) : string :=
  match v with
  | VUndef => "undefined"
  | VNull => "null"
  | VBool true => "true"
  | VBool false => "false"
  | VNum n => if safe_integer n then pretty n else string_of L v
  | VStr s => s
  | VArr l =>
      join_comma
        ((fix elems (l : list value) : list string :=
            match l with
            | [] => []
            | x :: r =>
                (match x with VUndef | VNull => "" | _ => to_key L x end)
                :: elems r
            end) l)
  | VObj _ => "[object Object]"
  | VNative _ => string_of L v
  end.

(** [_.compact]: the truthy elements. *)
Definition compact (l : list value) : list value := filter (fun v => truthy v = true) l.

(** [_.flattenDeep]. *)
Fixpoint flatten_value (v : value) : list value :=
  match v with
  | VArr l =>
      (fix go (l : list value) : list value :=
         match l with
         | [] => []
         | x :: r => (flatten_value x ++ go r)%list
         end) l
  | _ => [v]
  end.

Definition flattenDeep (l : list value) : list value :=
  flatten_value (VArr l).

(** [SameValueZero], the comparison of [_.uniq]: primitives by value,
    objects by identity (two objects of a list are never the same one,
    what is inherited under one name is). *)
Definition same_value_zero (x y : value) : bool :=
  match x, y with
  | VUndef, VUndef => true
  | VNull, VNull => true
  | VBool a, VBool b => Bool.eqb a b
  | VNum a, VNum b => (a =? b)%Z
  | VStr a, VStr b => String.eqb a b
  | VNative a, VNative b => String.eqb a b
  | _, _ => false
  end.

(** [_.uniq]: keep a value unless it is already among the kept ones. *)
Fixpoint baseUniq (kept l : list value) : list value :=
  match l with
  | [] => kept
  | x :: r =>
      if existsb (same_value_zero x) kept then baseUniq kept r
      else baseUniq (kept ++ [x])%list r
  end.

Definition uniq (l : list value) : list value := baseUniq [] l.

(** [s.split(" ")]. *)
Fixpoint split_space_aux (cur : string) (s : string) : list string :=
  match s with
  | EmptyString => [cur]
  | String c r =>
      if Ascii.eqb c (Ascii.ascii_of_nat 32) then cur :: split_space_aux "" r
      else split_space_aux (cur ++ String c EmptyString) r
  end.

Definition split_space (s : string) : list string := split_space_aux "" s.

(* ===================================================================== *)
(** * The store, the request context *)
(* ===================================================================== *)

(** A document of the store, with what its [toJSON()] gives. *)
Inductive MongoDoc := Model (json : entity).

Definition doc_toJSON (d : MongoDoc) : entity :=
  match d with Model j => j end.

(** [this.collection]: the optional [schema.methods.decodeID], and what
    [find({_id: {$in: ids}}).exec()] and [findById(id).exec()] resolve or
    reject with. *)
Record Collection := {
  decodeID : option (value -> value);
  find     : list value -> result (list MongoDoc);
  findById : value -> result (option MongoDoc)
}.

(** [ctx.params], with the parameters the service core reads. *)
Record Params := {
  prm_id             : value;
  prm_code           : value;
  prm_resultAsObject : value;
  prm_populate       : value;
  prm_propFilter     : value
}.

(** The request context: its parameters and what [ctx.call(action, params)]
    resolves or rejects with (an object indexed by identifier). *)
Record Context := {
  ctx_params : Params;
  ctx_call   : string -> Params -> result (gmap string value)
}.

(** The caller of a request. *)
Record User := {
  u_id    : value;
  u_roles : list string
}.

(* ===================================================================== *)
(** * Action descriptors and the published schema *)
(* ===================================================================== *)

(** An optional string-valued property; [None] is [undefined].  The empty
    string and [undefined] are the falsy ones. *)
Definition truthy_str (o : option string) : bool :=
  match o with
  | Some s => negb (String.eqb s "")
  | None => false
  end.

(** [a || b] on optional strings. *)
Definition or_str (a b : option string) : option string :=
  if truthy_str a then a else b.

(** [String.prototype.toLowerCase] on ASCII letters. *)
Definition lower_ascii (c : Ascii.ascii) : Ascii.ascii :=
  let n := Ascii.nat_of_ascii c in
  if (65 <=? n)%nat && (n <=? 90)%nat then Ascii.ascii_of_nat (n + 32) else c.

Fixpoint toLowerCase (s : string) : string :=
  match s with
  | EmptyString => EmptyString
  | String c r => String (lower_ascii c) (toLowerCase r)
  end.

(** The object form of an action.  [handler] is the reference of the
    function object; the publisher never calls it. *)
Record ActionDescriptor := {
  handler       : nat;
  name          : option string;
  permission    : option string;
  role          : option string;
  publish       : option bool;
  defaultMethod : option string;
  needModel     : bool
}.

(** An entry of [schema.actions]: a bare function or a descriptor object. *)
Inductive action_entry :=
  | Inline (h : nat)
  | Full (d : ActionDescriptor).

(** A resolver of the query protocol: the name of an action, or a function
    of its own. *)
Inductive resolver :=
  | RAction (action : string)
  | RFunc (f : nat).

Record GraphQL := {
  query     : string;
  mutation  : string;
  resolvers : list (string * list (string * resolver))
}.

Record Settings := {
  s_namespace      : option string;
  s_rest           : bool;
  s_ws             : bool;
  s_graphql        : bool;
  s_permission     : option string;
  s_role           : option string;
  s_hashedIdentity : bool;
  s_latestVersion  : option Z;
  s_modelPropFilter : value;
  s_modelPopulates  : option (list (string * value))
}.

Record Service := {
  svc_name     : string;
  svc_version  : option Z;
  svc_settings : Settings;
  svc_actions  : option (list (string * action_entry));
  svc_graphql  : option GraphQL;
  collection   : option Collection
}.

Record Route := {
  r_method     : string;
  r_path       : string;
  r_action     : string;
  r_permission : option string;
  r_role       : option string
}.

Record WsRoute := {
  w_path       : string;
  w_action     : string;
  w_permission : option string;
  w_role       : option string
}.

Record Schema := {
  namespace      : string;
  version        : option Z;
  latestVersion  : option Z;
  hashedIdentity : bool;
  idParamName    : string;
  rest           : option (list Route);
  ws             : option (list WsRoute);
  graphql        : option GraphQL
}.

Definition set_rest (sch : Schema) (rs : list Route) : Schema :=
  {| namespace := namespace sch; version := version sch;
     latestVersion := latestVersion sch; hashedIdentity := hashedIdentity sch;
     idParamName := idParamName sch; rest := Some rs; ws := ws sch;
     graphql := graphql sch |}.

Definition set_ws (sch : Schema) (rs : list WsRoute) : Schema :=
  {| namespace := namespace sch; version := version sch;
     latestVersion := latestVersion sch; hashedIdentity := hashedIdentity sch;
     idParamName := idParamName sch; rest := rest sch; ws := Some rs;
     graphql := graphql sch |}.

Definition set_graphql (sch : Schema) (g : option GraphQL) : Schema :=
  {| namespace := namespace sch; version := version sch;
     latestVersion := latestVersion sch; hashedIdentity := hashedIdentity sch;
     idParamName := idParamName sch; rest := rest sch; ws := ws sch;
     graphql := g |}.

(** [let action = _.isFunction(handler) ? { handler } : handler]. *)
Definition as_action (h : action_entry) : ActionDescriptor :=
  match h with
  | Inline f =>
      {| handler := f; name := None; permission := None; role := None;
         publish := None; defaultMethod := None; needModel := false |}
  | Full d => d
  end.

(** The three assignments of lines 60-62:
    [action.name = action.name || actionName],
    [action.permission = action.permission || this.settings.permission],
    [action.role = action.role || this.settings.role || C.ROLE_USER]. *)
Definition set_defaults (C : constants) (st : Settings) (actionName : string)
    (a : ActionDescriptor) : ActionDescriptor :=
  {| handler := handler a;
     name := or_str (name a) (Some actionName);
     permission := or_str (permission a) (s_permission st);
     role := or_str (or_str (role a) (s_role st)) (Some (ROLE_USER C));
     publish := publish a;
     defaultMethod := defaultMethod a;
     needModel := needModel a |}.

(** A property that holds a string, read inside a template literal. *)
Definition str_of (o : option string) : string := default "undefined" o.

(** The closure [addRoute] of line 69: [unshift] when [insert] is truthy,
    [push] otherwise. *)
Definition addRoute (actionCallName : string) (action : ActionDescriptor)
    (routes : list Route) (method path : string) (insert : bool) : list Route :=
  let r := {| r_method := method; r_path := path; r_action := actionCallName;
              r_permission := permission action; r_role := role action |} in
  if insert then r :: routes else routes ++ [r].

(** Lines 66-103: the request/response routes of one action. *)
Definition rest_routes_of (ns idp actionCallName : string)
    (action : ActionDescriptor) (routes : list Route) : list Route :=
  let add := addRoute actionCallName action in
  let an := str_of (name action) in
  let routes := add routes "get" ("/" ++ ns ++ "/" ++ an) true in
  let routes := add routes "post" ("/" ++ ns ++ "/" ++ an) true in
  let routes := add routes "get" ("/" ++ ns ++ "/:" ++ idp ++ "/" ++ an) true in
  let routes := add routes "post" ("/" ++ ns ++ "/:" ++ idp ++ "/" ++ an) true in
  match defaultMethod action with
  | Some m =>
      if truthy_str (Some m) then
        if needModel action
        then add routes (toLowerCase m) ("/" ++ ns ++ "/:" ++ idp) false
        else add routes (toLowerCase m) ("/" ++ ns) false
      else routes
  | None => routes
  end.

(** Lines 105-112: the channel route of one action. *)
Definition ws_route_of (ns actionCallName : string) (action : ActionDescriptor)
    : WsRoute :=
  {| w_path := "/" ++ ns ++ "/" ++ str_of (name action);
     w_action := actionCallName;
     w_permission := permission action;
     w_role := role action |}.

(** The body of the [_.forIn] callback (lines 51-113) for one entry: the
    schema after it, and the entry after it (a descriptor object is
    updated in place; the wrapper of a bare function is dropped). *)
Definition publish_entry (C : constants) (svc : Service) (sch : Schema)
    (actionName : string) (h : action_entry) : Schema * action_entry :=
  let action := as_action h in
  match publish action with
  | Some false => (sch, h)
  | _ =>
      let action := set_defaults C (svc_settings svc) actionName action in
      let actionCallName := svc_name svc ++ "." ++ str_of (name action) in
      let sch :=
        if s_rest (svc_settings svc) then
          set_rest sch (rest_routes_of (namespace sch) (idParamName sch)
                          actionCallName action (default [] (rest sch)))
        else sch in
      let sch :=
        if s_ws (svc_settings svc) then
          set_ws sch (default [] (ws sch) ++ [ws_route_of (namespace sch) actionCallName action])
        else sch in
      (sch, match h with Inline f => Inline f | Full _ => Full action end)
  end.

(** [_.forIn(this.schema.actions, ...)]: the entries in enumeration order. *)
Fixpoint publish_entries (C : constants) (svc : Service) (sch : Schema)
    (acts : list (string * action_entry))
    : Schema * list (string * action_entry) :=
  match acts with
  | [] => (sch, [])
  | (k, h) :: rest =>
      let '(sch1, h1) := publish_entry C svc sch k h in
      let '(sch2, rest2) := publish_entries C svc sch1 rest in
      (sch2, (k, h1) :: rest2)
  end.

(** Lines 29-47: the schema before the loop. *)
Definition initial_schema (svc : Service) : Schema :=
  let st := svc_settings svc in
  {| namespace := if truthy_str (s_namespace st) then str_of (s_namespace st)
                  else svc_name svc;
     version := svc_version svc;
     latestVersion := s_latestVersion st;
     hashedIdentity := s_hashedIdentity st;
     idParamName := if s_hashedIdentity st then "code" else "id";
     rest := if s_rest st then Some [] else None;
     ws := if s_ws st then Some [] else None;
     graphql := None |}.

(** What one run of [publishActions] leaves behind: the service with its
    descriptors as they are afterwards, the calls made to the broker
    ([www.publish] with the schema), and the value returned. *)
Record published := {
  p_service  : Service;
  p_calls    : list (string * Schema);
  p_returned : option Schema
}.

Definition set_actions (svc : Service) (acts : list (string * action_entry))
    : Service :=
  {| svc_name := svc_name svc; svc_version := svc_version svc;
     svc_settings := svc_settings svc; svc_actions := Some acts;
     svc_graphql := svc_graphql svc; collection := collection svc |}.

(** [publishActions()], lines 26-124. *)
Definition publishActions (C : constants) (svc : Service) : published :=
  match svc_actions svc with
  | None => {| p_service := svc; p_calls := []; p_returned := None |}
  | Some acts =>
      let '(sch, acts') := publish_entries C svc (initial_schema svc) acts in
      let sch :=
        if s_graphql (svc_settings svc) then set_graphql sch (svc_graphql svc)
        else sch in
      {| p_service := set_actions svc acts';
         p_calls := [("www.publish", sch)];
         p_returned := Some sch |}
  end.

(** The request/response routes and the channel routes of a run. *)
Definition published_rest (p : published) : list Route :=
  match p_returned p with
  | Some sch => default [] (rest sch)
  | None => []
  end.

Definition published_ws (p : published) : list WsRoute :=
  match p_returned p with
  | Some sch => default [] (ws sch)
  | None => []
  end.

Definition published_graphql (p : published) : option GraphQL :=
  match p_returned p with
  | Some sch => graphql sch
  | None => None
  end.

(* ===================================================================== *)
(** * Model checks *)
(* ===================================================================== *)

(** [checkModel(model, errMessageCode)], lines 135-140; an absent model
    is [None]. *)
Definition checkModel (model : option entity) (errMessageCode : string)
    : result entity :=
  match model with
  | Some m => Ok m
  | None => Err (RequestError BAD_REQUEST MODEL_NOT_FOUND errMessageCode)
  end.

(** [user.roles.indexOf(role) != -1]. *)
Definition has_role (roles : list string) (r : string) : bool :=
  existsb (String.eqb r) roles.

(** [checkModelOwner(model, fieldName, user, errMessageCode)], lines
    153-158; [errMessageCode] defaults to ["app:YouAreNotTheOwner"]. *)
Definition checkModelOwner (C : constants) (L : library) (model : entity)
    (fieldName : string) (user : User) (errMessageCode : option string)
    : result entity :=
  let errMessageCode := default "app:YouAreNotTheOwner" errMessageCode in
  if loose_eq L (obj_get model fieldName) (u_id user)
     || has_role (u_roles user) (ROLE_ADMIN C)
  then Ok model
  else Err (RequestError FORBIDDEN ERR_ONLY_OWNER_CAN_EDIT_AND_DELETE
              errMessageCode).

(* ===================================================================== *)
(** * Conversion to JSON with a property filter *)
(* ===================================================================== *)

(** What a promise of documents holds: nothing, one entity, or a
    sequence of entities. *)
Inductive docs :=
  | DUndef
  | DOne (e : entity)
  | DMany (es : list entity).

(** Lines 180-185 of [toJSON]: the filter falls back on the setting
    [modelPropFilter], and a string is split at the spaces. *)
Definition effective_filter (svc : Service) (propFilter : value) : value :=
  let propFilter :=
    if is_nullish propFilter then s_modelPropFilter (svc_settings svc)
    else propFilter in
  match propFilter with
  | VStr s => VArr (map VStr (split_space s))
  | _ => propFilter
  end.

(** The inner [func] of [toJSON], lines 171-178. *)
Definition toJSON_func (L : library) (propFilter : value) (doc : entity)
    : entity :=
  if negb (is_nullish propFilter) then pick L doc propFilter else doc.

(** [toJSON(docs, propFilter)], lines 170-192. *)
Definition toJSON (svc : Service) (L : library) (d : docs)
    (propFilter : value) : docs :=
  let propFilter := effective_filter svc propFilter in
  match d with
  | DMany es => DMany (map (toJSON_func L propFilter) es)
  | DOne e => DOne (toJSON_func L propFilter e)
  | DUndef => DUndef
  end.

(* ===================================================================== *)
(** * Population *)
(* ===================================================================== *)

(** What is recorded of a run: the lookups in the store and the actions
    called, in the order they are issued. *)
Inductive event :=
  | EvFind (ids : list value)
  | EvFindById (id : value)
  | EvCall (action : string) (p : Params).

(** The parameters of the call of line 244:
    [{ id: idList, resultAsObject: true, propFilter: true }]. *)
Definition populate_params (idList : list value) : Params :=
  {| prm_id := VArr idList; prm_code := VUndef;
     prm_resultAsObject := VBool true; prm_populate := VUndef;
     prm_propFilter := VBool true |}.

(** Line 240: [_.uniq(_.flattenDeep(_.compact(items.map(doc => doc[field]))))]. *)
Definition idList (items : list entity) (field : string) : list value :=
  uniq (flattenDeep (compact (map (fun doc => get_field doc field) items))).

(** One call to make: the field, the action, the identifiers. *)
Record job := {
  j_field  : string;
  j_action : string;
  j_ids    : list value
}.

(** The [_.forIn] of lines 235-258: the calls issued, in the order of the
    schema.  An entry whose value is not a string, or whose identifier
    list is empty, issues none. *)
Fixpoint populate_jobs (items : list entity) (schema : list (string * value))
    : list job :=
  match schema with
  | [] => []
  | (field, actionName) :: rest =>
      match actionName with
      | VStr a =>
          let ids := idList items field in
          if (0 <? length ids)%nat
          then {| j_field := field; j_action := a; j_ids := ids |}
               :: populate_jobs items rest
          else populate_jobs items rest
      | _ => populate_jobs items rest
      end
  end.

(** [populatedDocs[id]]: the answer is a plain object, given by its own
    properties; a key that it does not hold is looked up in
    [Object.prototype]. *)
Definition populated (L : library) (populatedDocs : gmap string value)
    (id : value) : value :=
  let key := to_key L id in
  match populatedDocs !! key with
  | Some v => v
  | None => default VUndef (object_prototype key)
  end.

(** Lines 247-253: the replacement in one document. *)
Definition replace_field (L : library) (field : string)
    (populatedDocs : gmap string value) (doc : entity) : entity :=
  let id := get_field doc field in
  match id with
  | VArr ids =>
      set_field doc field (VArr (compact (map (populated L populatedDocs) ids)))
  | _ => set_field doc field (populated L populatedDocs id)
  end.

(** [Promise.all(promises)]: every call resolves and its callback
    rewrites the documents, or the whole is rejected.  The callbacks are
    run in the order of the schema. *)
Fixpoint run_jobs (L : library) (ctx : Context) (jobs : list job)
    (items : list entity) : result (list entity) :=
  match jobs with
  | [] => Ok items
  | j :: rest =>
      match ctx_call ctx (j_action j) (populate_params (j_ids j)) with
      | Err e => Err e
      | Ok populatedDocs =>
          run_jobs L ctx rest
            (map (replace_field L (j_field j) populatedDocs) items)
      end
  end.

Definition docs_items (d : docs) : list entity :=
  match d with
  | DMany es => es
  | DOne e => [e]
  | DUndef => []
  end.

(** The documents, with their content as it is after the callbacks. *)
Definition with_items (d : docs) (items : list entity) : docs :=
  match d with
  | DMany _ => DMany items
  | DOne e => DOne (default e (head items))
  | DUndef => DUndef
  end.

(** [populateModels(ctx, docs, populateSchema)], lines 231-269: the calls
    issued and what the promise returned holds. *)
Definition populateModels (svc : Service) (L : library) (ctx : Context)
    (d : docs) (populateSchema : option (list (string * value)))
    : list event * result docs :=
  let populateSchema :=
    match populateSchema with
    | Some s => Some s
    | None => s_modelPopulates (svc_settings svc)
    end in
  match d, populateSchema with
  | DUndef, _ => ([], Ok d)
  | _, None => ([], Ok d)
  | _, Some schema =>
      let items := docs_items d in
      let jobs := populate_jobs items schema in
      if (0 <? length jobs)%nat then
        (map (fun j => EvCall (j_action j) (populate_params (j_ids j))) jobs,
         match run_jobs L ctx jobs items with
         | Ok items' => Ok (with_items d items')
         | Err e => Err e
         end)
      else ([], Ok d)
  end.

(* ===================================================================== *)
(** * Resolution of identifiers and models *)
(* ===================================================================== *)

(** [resolveID(ctx)], lines 278-291.  Reading [this.collection.schema]
    without a collection is a [TypeError]. *)
Definition resolveID (svc : Service) (ctx : Context) : result value :=
  let id := prm_id (ctx_params ctx) in
  let code := prm_code (ctx_params ctx) in
  if truthy code && s_hashedIdentity (svc_settings svc) then
    match collection svc with
    | None => Err (TypeError "Cannot read property 'schema' of undefined")
    | Some coll =>
        match decodeID coll with
        | Some decode =>
            match code with
            | VArr items => Ok (VArr (map decode items))
            | _ => Ok (decode code)
            end
        | None => Ok id
        end
    end
  else Ok id.

(** Line 323: [id == null || id.length == 0]. *)
Definition invalid_id (L : library) (id : value) : bool :=
  is_nullish id || loose_eq L (get_length id) (VNum 0).

(** The inner [filterProperties] of [resolveModel], lines 308-316; the
    document is an object, so [toJSON] applies its [func] to it. *)
Definition filterProperties (svc : Service) (L : library) (ctx : Context)
    (doc : entity) : entity :=
  let pf := prm_propFilter (ctx_params ctx) in
  if negb (is_nullish pf) then
    let filter := if isString pf then pf else VUndef in
    toJSON_func L (effective_filter svc filter) doc
  else doc.

(** What [resolveModel] resolves with: nothing, an entity, a sequence of
    entities, or an object that holds entities, given by its own
    properties and by its prototype when that is no longer
    [Object.prototype]. *)
Inductive resolved :=
  | RUndef
  | ROne (e : entity)
  | RMany (es : list entity)
  | RObject (m : gmap string entity) (proto : option entity).

(** Lines 336-341: the documents of the store in their JSON form. *)
Definition docs_of_found (found : list MongoDoc) : docs :=
  DMany (map doc_toJSON found).

Definition docs_of_one (found : option MongoDoc) : docs :=
  match found with
  | Some d => DOne (doc_toJSON d)
  | None => DUndef
  end.

(** [docsObj[key] = v] on the object built by line 356, with its own
    properties and its prototype ([None] for [Object.prototype]).  The key
    [__proto__] reaches the setter of [Object.prototype], which makes [v]
    the prototype, unless the object, or the entity that is its prototype
    by then, holds a property of that name. *)
Definition assign_entry (key : string) (v : entity)
    (docsObj : gmap string entity * option entity)
    : gmap string entity * option entity :=
  let '(own, proto) := docsObj in
  if String.eqb key "__proto__" then
    match own !! key, proto with
    | Some _, _ => (<[ key := v ]> own, proto)
    | None, Some p =>
        if has_own p key then (<[ key := v ]> own, proto) else (own, Some v)
    | None, None => (own, Some v)
    end
  else (<[ key := v ]> own, proto).

(** Line 356: [docs.forEach(doc => docsObj[doc.id] = filterProperties(doc))]. *)
Definition docs_as_object (svc : Service) (L : library) (ctx : Context)
    (es : list entity) : gmap string entity * option entity :=
  fold_left
    (fun docsObj doc =>
       assign_entry (to_key L (obj_get doc "id"))
         (filterProperties svc L ctx doc) docsObj)
    es (∅, None).

(** Lines 353-364: the last step of [resolveModel].  [docs.map] exists on
    a sequence only. *)
Definition shape_result (svc : Service) (L : library) (ctx : Context)
    (d : docs) : result resolved :=
  let p := ctx_params ctx in
  match d, prm_resultAsObject p with
  | DMany es, VBool true =>
      let '(own, proto) := docs_as_object svc L ctx es in
      Ok (RObject own proto)
  | _, _ =>
      if negb (is_nullish (prm_propFilter p)) then
        match d with
        | DMany es => Ok (RMany (map (filterProperties svc L ctx) es))
        | DOne _ => Err (TypeError "docs.map is not a function")
        | DUndef => Err (TypeError "Cannot read property 'map' of undefined")
        end
      else
        match d with
        | DMany es => Ok (RMany es)
        | DOne e => Ok (ROne e)
        | DUndef => Ok RUndef
        end
  end.

(** Lines 344-349: populate when [ctx.params.populate === true]. *)
Definition populate_if_asked (svc : Service) (L : library) (ctx : Context)
    (d : docs) : list event * result docs :=
  match prm_populate (ctx_params ctx) with
  | VBool true => populateModels svc L ctx d None
  | _ => ([], Ok d)
  end.

(** Lines 326-341: the lookup, by membership for a sequence of
    identifiers and by identifier otherwise, and what it finds in JSON
    form. *)
Definition lookup_docs (coll : Collection) (id : value)
    : event * result docs :=
  match id with
  | VArr ids =>
      (EvFind ids,
       match find coll ids with
       | Ok ds => Ok (docs_of_found ds)
       | Err e => Err e
       end)
  | _ =>
      (EvFindById id,
       match findById coll id with
       | Ok d => Ok (docs_of_one d)
       | Err e => Err e
       end)
  end.

(** The same request with another value of [ctx.params.resultAsObject]. *)
Definition with_resultAsObject (ctx : Context) (v : value) : Context :=
  {| ctx_params :=
       {| prm_id := prm_id (ctx_params ctx);
          prm_code := prm_code (ctx_params ctx);
          prm_resultAsObject := v;
          prm_populate := prm_populate (ctx_params ctx);
          prm_propFilter := prm_propFilter (ctx_params ctx) |};
     ctx_call := ctx_call ctx |}.

(** [resolveModel(ctx)], lines 307-366: the lookups and calls made, and
    what the promise returned holds. *)
Definition resolveModel (svc : Service) (L : library) (ctx : Context)
    : list event * result resolved :=
  match resolveID svc ctx with
  | Err e => ([], Err e)
  | Ok id =>
      if invalid_id L id then
        ([], Err (RequestError BAD_REQUEST INVALID_CODE "app:InvalidCode"))
      else
        match collection svc with
        | None => ([], Err (TypeError "Cannot read property 'find' of undefined"))
        | Some coll =>
            let '(ev, found) := lookup_docs coll id in
            match found with
            | Err e => ([ev], Err e)
            | Ok d =>
                let '(calls, populated) := populate_if_asked svc L ctx d in
                match populated with
                | Err e => (ev :: calls, Err e)
                | Ok d' => (ev :: calls, shape_result svc L ctx d')
                end
            end
        end
  end.

(* ===================================================================== *)
(** * Reading the published output *)
(* ===================================================================== *)

(** The descriptor an entry is published with, if it is published at all:
    the entry after the defaults are filled in. *)
Definition published_descriptor (C : constants) (svc : Service)
    (actionName : string) (h : action_entry) : option ActionDescriptor :=
  match publish (as_action h) with
  | Some false => None
  | _ => Some (set_defaults C (svc_settings svc) actionName (as_action h))
  end.

Definition published_descriptors (C : constants) (svc : Service)
    (acts : list (string * action_entry)) : list ActionDescriptor :=
  omap (fun e => published_descriptor C svc e.1 e.2) acts.

Definition route_of (svc : Service) (a : ActionDescriptor)
    (method path : string) : Route :=
  {| r_method := method; r_path := path;
     r_action := svc_name svc ++ "." ++ str_of (name a);
     r_permission := permission a; r_role := role a |}.

(** The four routes that carry the name of the action, as the list holds
    them after the four insertions at its head. *)
Definition generic_routes (svc : Service) (ns idp : string)
    (a : ActionDescriptor) : list Route :=
  let an := str_of (name a) in
  [ route_of svc a "post" ("/" ++ ns ++ "/:" ++ idp ++ "/" ++ an);
    route_of svc a "get" ("/" ++ ns ++ "/:" ++ idp ++ "/" ++ an);
    route_of svc a "post" ("/" ++ ns ++ "/" ++ an);
    route_of svc a "get" ("/" ++ ns ++ "/" ++ an) ].

(** The route without the name of the action, for a truthy [defaultMethod]. *)
Definition shortcut_routes (svc : Service) (ns idp : string)
    (a : ActionDescriptor) : list Route :=
  if truthy_str (defaultMethod a) then
    [ route_of svc a (toLowerCase (str_of (defaultMethod a)))
        (if needModel a then "/" ++ ns ++ "/:" ++ idp else "/" ++ ns) ]
  else [].

(** [x] stands in [l] ahead of every route of [ys]. *)
Definition placed_ahead (x : Route) (ys : list Route) (l : list Route) : Prop :=
  exists pre post, l = (pre ++ x :: post)%list /\ forall y, y ∈ ys -> y ∈ post.

(** The bindings of a query-protocol schema that name an action: the
    root, the name of the binding, the action. *)
Definition resolver_bindings (g : GraphQL) : list (string * string * string) :=
  flat_map
    (fun root =>
       omap (fun b => match b.2 with
                      | RAction a => Some (root.1, b.1, a)
                      | RFunc _ => None
                      end) root.2)
    (resolvers g).



(** An identifier that is absent, empty or of zero length. *)
Definition absent_or_empty (L : library) (id : value) : Prop :=
  id = VUndef \/ id = VNull \/ id = VStr "" \/ id = VArr [] \/
  (exists fs, id = VObj fs /\ loose_eq L (obj_get fs "length") (VNum 0) = true)
  \/ (exists name, id = VNative name
                   /\ loose_eq L (native_length name) (VNum 0) = true).

Definition is_entity (v : value) : Prop :=
  match v with VObj _ => True | _ => False end.


(** The error of line 324. *)
Definition invalid_code : error :=
  RequestError BAD_REQUEST INVALID_CODE "app:InvalidCode".

(** What a field holds after the replacement of lines 247-253, given what
    it held before. *)
Definition populated_value (L : library) (populatedDocs : gmap string value)
    (id : value) : value :=
  match id with
  | VArr ids => VArr (compact (map (populated L populatedDocs) ids))
  | _ => populated L populatedDocs id
  end.

(** Some entity holds a reference in the field: a truthy value that does
    not flatten to nothing. *)
Definition referenced (items : list entity) (field : string) : Prop :=
  exists doc, doc ∈ items /\ truthy (get_field doc field) = true
              /\ flatten_value (get_field doc field) <> [].



(** The key of the identifier names no member of [Object.prototype]. *)
Definition plain_key (L : library) (id : value) : Prop :=
  object_prototype (to_key L id) = None.

(** The references of a field: the members of a sequence, or the value
    itself. *)
Definition references (v : value) : list value :=
  match v with
  | VArr ids => ids
  | _ => [v]
  end.

(** Two objects hold the same under a name: both own a property of that
    name or neither does, and its value is the same. *)
Definition same_field (field : string) (d1 d2 : entity) : Prop :=
  has_own d1 field = has_own d2 field /\ obj_get d1 field = obj_get d2 field.

(** The name is that of no member of [Object.prototype]. *)
Definition plain_name (field : string) : Prop :=
  object_prototype field = None.

(** The call that a job stands for. *)
Definition job_event (j : job) : event :=
  EvCall (j_action j) (populate_params (j_ids j)).

(* ===================================================================== *)
(** * Scenarios *)
(* ===================================================================== *)

Definition C0 : constants := {| ROLE_USER := "user"; ROLE_ADMIN := "admin" |}.

(** Top-level keys only, equality without conversion, and a name for
    what the engine prints. *)
Definition L0 : library :=
  {| pick := fun doc paths =>
       match paths with
       | VArr ks => filter (fun kv => existsb (same_value_zero (VStr kv.1)) ks = true) doc
       | _ => []
       end;
     coerce_eq := fun _ _ => false;
     string_of := fun v =>
       match v with
       | VNative name => "function " ++ name ++ "() { [native code] }"
       | _ => "Infinity"
       end |}.

Definition settings0 : Settings :=
  {| s_namespace := None; s_rest := true; s_ws := true; s_graphql := true;
     s_permission := Some "loggedIn"; s_role := Some "user";
     s_hashedIdentity := false; s_latestVersion := None;
     s_modelPropFilter := VUndef; s_modelPopulates := None |}.

(** Action [rename] with [defaultMethod = "put"], [needModel = true] in
    the service of namespace [docs]. *)
Definition rename_action : ActionDescriptor :=
  {| handler := 1; name := None; permission := None; role := None;
     publish := None; defaultMethod := Some "put"; needModel := true |}.

Definition docs_service : Service :=
  {| svc_name := "docs"; svc_version := None; svc_settings := settings0;
     svc_actions := Some [("rename", Full rename_action)];
     svc_graphql := None; collection := None |}.

(** The session service with its action [me] not published, and its
    query-protocol schema as declared. *)
Definition me_action : ActionDescriptor :=
  {| handler := 2; name := None; permission := None; role := None;
     publish := Some false; defaultMethod := None; needModel := false |}.

Definition session_graphql : GraphQL :=
  {| query := "me: User onlineUsers: [User]"; mutation := "";
     resolvers := [("Query", [("me", RAction "me");
                              ("onlineUsers", RAction "onlineUsers")])] |}.

Definition session_service : Service :=
  {| svc_name := "session"; svc_version := Some 1%Z;
     svc_settings := settings0;
     svc_actions := Some [("me", Full me_action); ("onlineUsers", Inline 3)];
     svc_graphql := Some session_graphql; collection := None |}.

(** The entity of the scenarios, [{id: "a", owner: "u1", tags: ["t1","t2"]}],
    and the two callers. *)
Definition scenario_entity : entity :=
  [("id", VStr "a"); ("owner", VStr "u1");
   ("tags", VArr [VStr "t1"; VStr "t2"])].

Definition user_u2 : User := {| u_id := VStr "u2"; u_roles := ["user"] |}.

Definition admin_u2 : User :=
  {| u_id := VStr "u2"; u_roles := ["user"; "admin"] |}.

(** A collection that holds the given entities: lookup by membership in
    the order of the store, lookup by identifier. *)
Definition store_of (es : list entity) : Collection :=
  {| decodeID := None;
     find := fun ids =>
       Ok (map Model
             (filter (fun e => existsb (same_value_zero (obj_get e "id")) ids = true) es));
     findById := fun id =>
       Ok (head (map Model
                   (filter (fun e => same_value_zero (obj_get e "id") id = true) es))) |}.

Definition with_collection (svc : Service) (coll : Collection) : Service :=
  {| svc_name := svc_name svc; svc_version := svc_version svc;
     svc_settings := svc_settings svc; svc_actions := svc_actions svc;
     svc_graphql := svc_graphql svc; collection := Some coll |}.

(** The service [docs] over a store that holds the entity [a]. *)
Definition docs_store_service : Service :=
  with_collection docs_service (store_of [scenario_entity]).

(** The same service configured for encoded identifiers; its collection
    has no [decodeID]. *)
Definition hashed_service : Service :=
  {| svc_name := "docs"; svc_version := None;
     svc_settings :=
       {| s_namespace := None; s_rest := true; s_ws := true; s_graphql := true;
          s_permission := Some "loggedIn"; s_role := Some "user";
          s_hashedIdentity := true; s_latestVersion := None;
          s_modelPropFilter := VUndef; s_modelPopulates := None |};
     svc_actions := None; svc_graphql := None;
     collection := Some (store_of [scenario_entity]) |}.

(** A context whose calls all fail. *)
Definition ctx_of (p : Params) : Context :=
  {| ctx_params := p;
     ctx_call := fun _ _ => Err (External "no such action") |}.

Definition params_id (id : value) : Params :=
  {| prm_id := id; prm_code := VUndef; prm_resultAsObject := VUndef;
     prm_populate := VUndef; prm_propFilter := VUndef |}.

(** [{ code: "XYZ" }]. *)
Definition params_code_XYZ : Params :=
  {| prm_id := VUndef; prm_code := VStr "XYZ"; prm_resultAsObject := VUndef;
     prm_populate := VUndef; prm_propFilter := VUndef |}.

(** [{ id: "a", resultAsObject: true, propFilter: true }]. *)
Definition params_single_filtered : Params :=
  {| prm_id := VStr "a"; prm_code := VUndef; prm_resultAsObject := VBool true;
     prm_populate := VUndef; prm_propFilter := VBool true |}.

(** [{ id: "a", resultAsObject: true }]. *)
Definition params_single : Params :=
  {| prm_id := VStr "a"; prm_code := VUndef; prm_resultAsObject := VBool true;
     prm_populate := VUndef; prm_propFilter := VUndef |}.

(** Three posts, two of them under the identifier 1. *)
Definition post_1 : entity := [("id", VNum 1); ("title", VStr "first")].
Definition post_1' : entity := [("id", VNum 1); ("title", VStr "again")].
Definition post_2 : entity := [("id", VNum 2); ("title", VStr "second")].

Definition posts_service : Service :=
  with_collection docs_service (store_of [post_1; post_1'; post_2]).

(** [{ id: [1, 2], resultAsObject: true }]. *)
Definition params_posts : Params :=
  {| prm_id := VArr [VNum 1; VNum 2]; prm_code := VUndef;
     prm_resultAsObject := VBool true; prm_populate := VUndef;
     prm_propFilter := VUndef |}.







(** The tags service of the scenario: [tags.getByIds] answers with the
    object [{t1: {...}, t2: {...}}]; no other action exists. *)
Definition tag_t1 : entity := [("id", VStr "t1"); ("name", VStr "rocq")].
Definition tag_t2 : entity := [("id", VStr "t2"); ("name", VStr "proofs")].

Definition tags_result : gmap string value :=
  <[ "t1" := VObj tag_t1 ]> (<[ "t2" := VObj tag_t2 ]> ∅).

Definition tags_ctx : Context :=
  {| ctx_params := params_id (VStr "a");
     ctx_call := fun a _ =>
       if String.eqb a "tags.getByIds" then Ok tags_result
       else Err (External "no such action") |}.

Definition tags_schema : list (string * value) :=
  [("tags", VStr "tags.getByIds")].

(** An entity that refers to a tag named as a member of
    [Object.prototype] is: [{id: "a", tags: ["t1", "constructor"]}]. *)
Definition constructor_entity : entity :=
  [("id", VStr "a"); ("tags", VArr [VStr "t1"; VStr "constructor"])].

(** An entity whose reference is such a name:
    [{id: "b", tags: "toString"}]. *)
Definition toString_entity : entity :=
  [("id", VStr "b"); ("tags", VStr "toString")].





(** The scenario of C1: the routes of [rename], as published. *)
Definition rename_shortcut : Route :=
  {| r_method := "put"; r_path := "/docs/:id"; r_action := "docs.rename";
     r_permission := Some "loggedIn"; r_role := Some "user" |}.

Definition rename_generic : list Route :=
  map (fun mp => {| r_method := mp.1; r_path := mp.2;
                    r_action := "docs.rename";
                    r_permission := Some "loggedIn"; r_role := Some "user" |})
    [ ("get", "/docs/rename"); ("post", "/docs/rename");
      ("get", "/docs/:id/rename"); ("post", "/docs/:id/rename") ].


(* ===================================================================== *)
(** * Query filters *)
(* ===================================================================== *)

(** The parameters that [applyFilters] reads from [ctx.params]. *)
Record FilterParams := {
  prm_limit  : value;
  prm_offset : value;
  prm_sort   : value
}.

(** A call made on the query of the store. *)
Inductive query_op :=
  | QLimit (n : value)
  | QSkip (n : value)
  | QSort (fields : string).

(** [s.replace(/,/, " ")]: the pattern has no [g] flag, so the first
    comma only is replaced. *)
Fixpoint replace_comma (s : string) : string :=
  match s with
  | EmptyString => EmptyString
  | String c r =>
      if Ascii.eqb c (Ascii.ascii_of_nat 44)
      then String (Ascii.ascii_of_nat 32) r
      else String c (replace_comma r)
  end.

(** [applyFilters(query, ctx)], lines 207-219.  The query is the list of
    the calls made on it so far; [ctx.params] may be absent.  A truthy
    [sort] that is not a string has no [replace]. *)
Definition applyFilters (query : list query_op) (params : option FilterParams)
    : result (list query_op) :=
  match params with
  | None => Ok query
  | Some p =>
      let query :=
        if truthy (prm_limit p) then (query ++ [QLimit (prm_limit p)])%list
        else query in
      let query :=
        if truthy (prm_offset p) then (query ++ [QSkip (prm_offset p)])%list
        else query in
      if truthy (prm_sort p) then
        match prm_sort p with
        | VStr s => Ok (query ++ [QSort (replace_comma s)])%list
        | _ => Err (TypeError "ctx.params.sort.replace is not a function")
        end
      else Ok query
  end.

(** [words.join(" ")]. *)
Fixpoint join_space (words : list string) : string :=
  match words with
  | [] => ""
  | [w] => w
  | w :: rest => w ++ " " ++ join_space rest
  end.

(** The string holds a space. *)
Fixpoint has_space (s : string) : bool :=
  match s with
  | EmptyString => false
  | String c r => Ascii.eqb c (Ascii.ascii_of_nat 32) || has_space r
  end.

(** The string holds a comma. *)
Fixpoint has_comma (s : string) : bool :=
  match s with
  | EmptyString => false
  | String c r => Ascii.eqb c (Ascii.ascii_of_nat 44) || has_comma r
  end.

(* ===================================================================== *)
(** * The service loader: [ServiceLoader] *)
(* ===================================================================== *)

(** What is recorded of a request handled by the loader: the events it
    emits, the stages of the context it runs, the error it logs and the
    answer it hands to the callback of the socket. *)
Inductive pevent :=
  | PEmit (name : string)
  | PResolveModel
  | PCheckPermission
  | PHandler
  | PLogError (e : error)
  | PCallback (answer : result value).

(** The three stages of a request, each by what its promise holds when it
    is run: [ctx.resolveModel()], [ctx.checkPermission()] and
    [action.handler(ctx)]. *)
Record Stages := {
  st_resolveModel    : result unit;
  st_checkPermission : result unit;
  st_handler         : result value
}.

(** A promise under way: what has happened so far, and what it holds. *)
Definition promise (A : Type) : Type := list pevent * result A.

(** [p.then(k)]. *)
Definition p_then {A B : Type} (p : promise A) (k : A -> promise B)
    : promise B :=
  match p with
  | (log, Ok a) => let '(log', r) := k a in ((log ++ log')%list, r)
  | (log, Err e) => (log, Err e)
  end.

(** [p.catch(h)]. *)
Definition p_catch {A : Type} (p : promise A) (h : error -> promise A)
    : promise A :=
  match p with
  | (log, Ok a) => (log, Ok a)
  | (log, Err e) => let '(log', r) := h e in ((log ++ log')%list, r)
  end.

(** The three [then] shared by the two handlers: resolve the model, check
    the permission, call the handler of the action. *)
Definition run_stages (s : Stages) : promise value :=
  p_then
    (p_then
       (p_then ([], Ok tt) (fun _ => ([PResolveModel], st_resolveModel s)))
       (fun _ => ([PCheckPermission], st_checkPermission s)))
    (fun _ => ([PHandler], st_handler s)).

(** The handler of a socket event, in [registerSockets]: the answer goes
    to the callback, when there is one, and the event [response] is
    emitted in any case. *)
Definition socket_request (s : Stages) (has_callback : bool) : promise unit :=
  let '(log, r) :=
    p_then
      (p_catch
         (p_then (run_stages s)
            (fun json =>
               (if has_callback then [PCallback (Ok json)] else [], Ok tt)))
         (fun err =>
            ((PLogError err
              :: if has_callback then [PCallback (Err err)] else [])%list,
             Ok tt)))
      (fun _ => ([PEmit "response"], Ok tt)) in
  (PEmit "request" :: log, r).

(** The resolver bound to an action, in [registerGraphQLSchema]: an error
    is logged and thrown again, and the event [response] is emitted by
    the [then] that follows. *)
Definition graphql_request (s : Stages) : promise value :=
  let '(log, r) :=
    p_then
      (p_catch (run_stages s) (fun err => ([PLogError err], Err err)))
      (fun json => ([PEmit "response"], Ok json)) in
  (PEmit "request" :: log, r).

(** A service as the loader holds it: its namespace and version, its
    switch [ws], and for each action the name in the settings of its
    function. *)
Record LoadedService := {
  ls_name      : string;
  ls_namespace : string;
  ls_version   : option Z;
  ls_ws        : value;
  ls_actions   : list (string * string)
}.

(** [service.version], as a condition. *)
Definition version_truthy (v : option Z) : bool :=
  match v with
  | Some n => negb (n =? 0)%Z
  | None => false
  end.

(** The events bound on a socket for one action, lines 571-625:
    ["/" + namespace + "/" + name], and the same after ["/v" + version]
    when the service has a version. *)
Definition action_events (svc : LoadedService) (action_name : string)
    : list string :=
  let cmd := "/" ++ ls_namespace svc ++ "/" ++ action_name in
  if version_truthy (ls_version svc)
  then [cmd; "/v" ++ pretty (default 0%Z (ls_version svc)) ++ cmd]
  else [cmd].

(** The events bound on a connection for one service, lines 545-629;
    nothing is bound when [service.ws === false]. *)
Definition service_events (svc : LoadedService) : list string :=
  match ls_ws svc with
  | VBool false => []
  | _ => flat_map (fun a => action_events svc a.2) (ls_actions svc)
  end.

(** [registerSockets]: the events bound on a connection, service by
    service. *)
Definition socket_events (services : list (string * LoadedService))
    : list string :=
  flat_map (fun s => service_events s.2) services.

(** A resolver after [processResolvers]: bound to an action of the
    service, or left as it was declared. *)
Inductive bound_resolver :=
  | BHandler (service action : string)
  | BDeclared (r : resolver).

(** The callback of [processResolvers], lines 654-707: a string under
    which [service.actions] holds something is replaced by a handler of
    that action.  [service.actions[resolver]] finds the actions of the
    service and what the object inherits; [inherited] tells the names
    under which it inherits a member. *)
Definition process_resolver (service : string) (actions : list (string * string))
    (inherited : string -> bool) (r : resolver) : bound_resolver :=
  match r with
  | RAction a =>
      if existsb (fun e => String.eqb e.1 a) actions || inherited a
      then BHandler service a
      else BDeclared r
  | RFunc _ => BDeclared r
  end.

(** Lines 710-713: the resolvers under [Query] and [Mutation] are
    processed, those under another root are left alone. *)
Definition process_root (service : string) (actions : list (string * string))
    (inherited : string -> bool) (root : string * list (string * resolver))
    : string * list (string * bound_resolver) :=
  (root.1,
   if String.eqb root.1 "Query" || String.eqb root.1 "Mutation"
   then map (fun b => (b.1, process_resolver service actions inherited b.2))
          root.2
   else map (fun b => (b.1, BDeclared b.2)) root.2).

(** What a route holds of the entry it is derived from: the qualified
    name of the action (the name of the descriptor, or the key when it
    has none), its permission or that of the service, its role or that of
    the service or the user role. *)
Definition derived_from (C : constants) (svc : Service) (k : string)
    (h : action_entry) (action : string) (perm rl : option string) : Prop :=
  publish (as_action h) <> Some false
  /\ action = svc_name svc ++ "." ++ str_of (or_str (name (as_action h)) (Some k))
  /\ perm = or_str (permission (as_action h)) (s_permission (svc_settings svc))
  /\ rl = or_str (or_str (role (as_action h)) (s_role (svc_settings svc)))
            (Some (ROLE_USER C)).

(** A caller that is not signed in, and an entity without an owner. *)
Definition anonymous : User := {| u_id := VUndef; u_roles := [] |}.

Definition orphan_entity : entity := [("id", VStr "b")].

(** [{ limit: 10, offset: 0, sort: "-votes,createdAt,title" }]. *)
Definition params_page : FilterParams :=
  {| prm_limit := VNum 10; prm_offset := VNum 0;
     prm_sort := VStr "-votes,createdAt,title" |}.

(** A value that [_.uniq] compares by what it is: neither a sequence nor
    a plain object. *)
Definition is_primitive (v : value) : bool :=
  match v with
  | VArr _ | VObj _ => false
  | _ => true
  end.

(** A context in which every call is rejected. *)
Definition failing_ctx : Context := ctx_of (params_id (VStr "a")).

(** Two calls of a population, on the fields [tags] and [owner]. *)
Definition job_tags : job :=
  {| j_field := "tags"; j_action := "tags.getByIds";
     j_ids := [VStr "t1"; VStr "t2"] |}.

Definition job_owner : job :=
  {| j_field := "owner"; j_action := "tags.getByIds"; j_ids := [VStr "u1"] |}.

(** A lookup in the store; a call of an action. *)
Definition is_lookup (ev : event) : Prop :=
  match ev with
  | EvFind _ | EvFindById _ => True
  | EvCall _ _ => False
  end.

Definition is_call (ev : event) : Prop :=
  match ev with
  | EvCall _ _ => True
  | _ => False
  end.

(** What the three stages of a request come to: the first failure, or
    what the handler gives. *)
Definition stages_outcome (s : Stages) : result value :=
  match st_resolveModel s with
  | Err e => Err e
  | Ok _ =>
      match st_checkPermission s with
      | Err e => Err e
      | Ok _ => st_handler s
      end
  end.

(** The answers handed to the callback, in a log. *)
Definition callbacks (log : list pevent) : list (result value) :=
  omap (fun ev => match ev with PCallback a => Some a | _ => None end) log.

(** The events emitted, in a log. *)
Definition emitted (log : list pevent) : list string :=
  omap (fun ev => match ev with PEmit n => Some n | _ => None end) log.

(** A codec of identifiers for the scenarios: a code wraps the
    identifier. *)
Definition encode_id (id : value) : value := VObj [("h", id)].

Definition decode_id (code : value) : value :=
  match code with
  | VObj fs => obj_get fs "h"
  | _ => VUndef
  end.

Definition coded_store : Collection :=
  {| decodeID := Some decode_id;
     find := find (store_of [post_1; post_2]);
     findById := findById (store_of [post_1; post_2]) |}.

Definition coded_service : Service :=
  {| svc_name := "posts"; svc_version := None;
     svc_settings := svc_settings hashed_service;
     svc_actions := None; svc_graphql := None;
     collection := Some coded_store |}.

(** [{ id: 7, code: [<code of 1>, <code of 2>] }]. *)
Definition params_codes : Params :=
  {| prm_id := VNum 7;
     prm_code := VArr [encode_id (VNum 1); encode_id (VNum 2)];
     prm_resultAsObject := VUndef; prm_populate := VUndef;
     prm_propFilter := VUndef |}.

(** The session service as the loader holds it. *)
Definition loaded_session : LoadedService :=
  {| ls_name := "session"; ls_namespace := "session"; ls_version := Some 1%Z;
     ls_ws := VUndef;
     ls_actions := [("me", "me"); ("onlineUsers", "onlineUsers")] |}.

(** A request whose permission check fails. *)
Definition refused : Stages :=
  {| st_resolveModel := Ok tt;
     st_checkPermission :=
       Err (RequestError FORBIDDEN ERR_ONLY_OWNER_CAN_EDIT_AND_DELETE
              "app:YouAreNotTheOwner");
     st_handler := Ok (VStr "done") |}.

(* ===================================================================== *)
(** * Publishing: the routes *)
(* ===================================================================== *)

Section Publishing.
Context (C : constants).

Lemma rest_routes_of_split svc ns idp a routes :
  rest_routes_of ns idp (svc_name svc ++ "." ++ str_of (name a)) a routes
  = (generic_routes svc ns idp a ++ routes ++ shortcut_routes svc ns idp a)%list.
Proof.
  unfold rest_routes_of, shortcut_routes, generic_routes, addRoute, route_of.
  destruct (defaultMethod a) as [m|] eqn:Hm; simpl.
  - destruct (negb (String.eqb m "")); simpl.
    + destruct (needModel a); reflexivity.
    + by rewrite app_nil_r.
  - by rewrite app_nil_r.
Qed.

Lemma publish_entry_namespace svc sch k h :
  namespace (publish_entry C svc sch k h).1 = namespace sch /\
  idParamName (publish_entry C svc sch k h).1 = idParamName sch /\
  graphql (publish_entry C svc sch k h).1 = graphql sch /\
  version (publish_entry C svc sch k h).1 = version sch /\
  latestVersion (publish_entry C svc sch k h).1 = latestVersion sch /\
  hashedIdentity (publish_entry C svc sch k h).1 = hashedIdentity sch.
Proof.
  unfold publish_entry.
  destruct (publish (as_action h)) as [[|]|]; simpl;
    destruct (s_rest (svc_settings svc)), (s_ws (svc_settings svc)); simpl;
    repeat split.
Qed.

(** One entry: the schema after it, read field by field. *)
Lemma publish_entry_rest svc sch k h :
  s_rest (svc_settings svc) = true ->
  default [] (rest (publish_entry C svc sch k h).1)
  = match published_descriptor C svc k h with
    | Some a =>
        (generic_routes svc (namespace sch) (idParamName sch) a
           ++ default [] (rest sch)
           ++ shortcut_routes svc (namespace sch) (idParamName sch) a)%list
    | None => default [] (rest sch)
    end.
Proof.
  intros Hrest. unfold publish_entry, published_descriptor.
  destruct (publish (as_action h)) as [[|]|]; simpl; rewrite ?Hrest;
    try reflexivity;
    destruct (s_ws (svc_settings svc)); simpl;
    apply rest_routes_of_split.
Qed.

Lemma publish_entry_ws svc sch k h :
  s_ws (svc_settings svc) = true ->
  default [] (ws (publish_entry C svc sch k h).1)
  = match published_descriptor C svc k h with
    | Some a =>
        (default [] (ws sch)
           ++ [ws_route_of (namespace sch)
                 (svc_name svc ++ "." ++ str_of (name a)) a])%list
    | None => default [] (ws sch)
    end.
Proof.
  intros Hws. unfold publish_entry, published_descriptor.
  destruct (publish (as_action h)) as [[|]|]; simpl; rewrite ?Hws;
    try reflexivity;
    destruct (s_rest (svc_settings svc)); simpl; reflexivity.
Qed.

(** The whole loop: the routes with a name, last action first, then the
    routes already there, then the shortcuts, first action first. *)
Lemma publish_entries_rest svc acts : forall sch,
  s_rest (svc_settings svc) = true ->
  default [] (rest (publish_entries C svc sch acts).1)
  = (flat_map (generic_routes svc (namespace sch) (idParamName sch))
       (rev (published_descriptors C svc acts))
     ++ default [] (rest sch)
     ++ flat_map (shortcut_routes svc (namespace sch) (idParamName sch))
          (published_descriptors C svc acts))%list.
Proof.
  induction acts as [|[k h] acts IH]; intros sch Hrest; simpl.
  - by rewrite app_nil_r.
  - destruct (publish_entry C svc sch k h) as [sch1 h1] eqn:E1.
    destruct (publish_entries C svc sch1 acts) as [sch2 acts2] eqn:E2.
    simpl.
    pose proof (IH sch1 Hrest) as IH1. rewrite E2 in IH1. simpl in IH1.
    rewrite IH1.
    pose proof (publish_entry_rest svc sch k h Hrest) as H1.
    pose proof (publish_entry_namespace svc sch k h) as (Hn & Hi & _).
    rewrite E1 in H1, Hn, Hi. simpl in H1, Hn, Hi.
    rewrite H1, Hn, Hi.
    unfold published_descriptors. simpl.
    destruct (published_descriptor C svc k h) as [a|]; simpl.
    + rewrite flat_map_app. simpl.
      rewrite <- !app_assoc. simpl. reflexivity.
    + reflexivity.
Qed.

Lemma publish_entries_ws svc acts : forall sch,
  s_ws (svc_settings svc) = true ->
  default [] (ws (publish_entries C svc sch acts).1)
  = (default [] (ws sch)
     ++ map (fun a => ws_route_of (namespace sch)
                        (svc_name svc ++ "." ++ str_of (name a)) a)
          (published_descriptors C svc acts))%list.
Proof.
  induction acts as [|[k h] acts IH]; intros sch Hws; simpl.
  - by rewrite app_nil_r.
  - destruct (publish_entry C svc sch k h) as [sch1 h1] eqn:E1.
    destruct (publish_entries C svc sch1 acts) as [sch2 acts2] eqn:E2.
    simpl.
    pose proof (IH sch1 Hws) as IH1. rewrite E2 in IH1. simpl in IH1.
    rewrite IH1.
    pose proof (publish_entry_ws svc sch k h Hws) as H1.
    pose proof (publish_entry_namespace svc sch k h) as (Hn & _).
    rewrite E1 in H1, Hn. simpl in H1, Hn.
    rewrite H1, Hn.
    unfold published_descriptors. simpl.
    destruct (published_descriptor C svc k h) as [a|]; simpl.
    + rewrite <- app_assoc. reflexivity.
    + reflexivity.
Qed.

Lemma published_rest_eq svc acts :
  svc_actions svc = Some acts ->
  published_rest (publishActions C svc)
  = default [] (rest (publish_entries C svc (initial_schema svc) acts).1).
Proof.
  intros Ha. unfold published_rest, publishActions. rewrite Ha.
  destruct (publish_entries C svc (initial_schema svc) acts) as [sch acts'].
  simpl. destruct (s_graphql (svc_settings svc)); reflexivity.
Qed.

Lemma published_ws_eq svc acts :
  svc_actions svc = Some acts ->
  published_ws (publishActions C svc)
  = default [] (ws (publish_entries C svc (initial_schema svc) acts).1).
Proof.
  intros Ha. unfold published_ws, publishActions. rewrite Ha.
  destruct (publish_entries C svc (initial_schema svc) acts) as [sch acts'].
  simpl. destruct (s_graphql (svc_settings svc)); reflexivity.
Qed.

Lemma initial_rest_empty svc : default [] (rest (initial_schema svc)) = [].
Proof. unfold initial_schema. simpl. by destruct (s_rest (svc_settings svc)). Qed.

Lemma initial_ws_empty svc : default [] (ws (initial_schema svc)) = [].
Proof. unfold initial_schema. simpl. by destruct (s_ws (svc_settings svc)). Qed.

Lemma publish_entries_app svc l1 : forall sch l2,
  publish_entries C svc sch (l1 ++ l2)
  = ((publish_entries C svc (publish_entries C svc sch l1).1 l2).1,
     ((publish_entries C svc sch l1).2
        ++ (publish_entries C svc (publish_entries C svc sch l1).1 l2).2)%list).
Proof.
  induction l1 as [|[k h] l1 IH]; intros sch l2; simpl.
  - by destruct (publish_entries C svc sch l2).
  - destruct (publish_entry C svc sch k h) as [sch1 h1].
    rewrite IH.
    destruct (publish_entries C svc sch1 l1) as [sch2 a2]; simpl.
    reflexivity.
Qed.

Lemma publish_entry_unpublished svc sch k h :
  publish (as_action h) = Some false ->
  publish_entry C svc sch k h = (sch, h).
Proof. intros E. unfold publish_entry. by rewrite E. Qed.

(** The schema built by the loop does not see an unpublished entry. *)
Lemma publish_entries_skip svc sch pre k h post :
  publish (as_action h) = Some false ->
  (publish_entries C svc sch (pre ++ (k, h) :: post)).1
  = (publish_entries C svc sch (pre ++ post)).1.
Proof.
  intros E. rewrite !publish_entries_app. simpl.
  rewrite (publish_entry_unpublished _ _ _ _ E).
  by destruct (publish_entries C svc (publish_entries C svc sch pre).1 post).
Qed.

(** The loop reads the settings and the name of the service only. *)
Lemma publish_entries_set_actions svc x acts : forall sch,
  publish_entries C (set_actions svc x) sch acts
  = publish_entries C svc sch acts.
Proof.
  induction acts as [|[k h] acts IH]; intros sch; simpl; [done|].
  change (publish_entry C (set_actions svc x) sch k h)
    with (publish_entry C svc sch k h).
  destruct (publish_entry C svc sch k h) as [sch1 h1].
  by rewrite IH.
Qed.

Lemma returned_set_actions svc acts :
  p_returned (publishActions C (set_actions svc acts))
  = Some (let sch := (publish_entries C svc (initial_schema svc) acts).1 in
          if s_graphql (svc_settings svc)
          then set_graphql sch (svc_graphql svc) else sch).
Proof.
  unfold publishActions. simpl.
  change (initial_schema (set_actions svc acts)) with (initial_schema svc).
  rewrite publish_entries_set_actions.
  by destruct (publish_entries C svc (initial_schema svc) acts).
Qed.

Lemma returned_actions svc acts :
  svc_actions svc = Some acts ->
  p_returned (publishActions C svc)
  = Some (let sch := (publish_entries C svc (initial_schema svc) acts).1 in
          if s_graphql (svc_settings svc)
          then set_graphql sch (svc_graphql svc) else sch).
Proof.
  intros Ha. unfold publishActions. rewrite Ha.
  by destruct (publish_entries C svc (initial_schema svc) acts).
Qed.

Lemma or_str_idem a b : or_str (or_str a b) b = or_str a b.
Proof.
  unfold or_str.
  destruct (truthy_str a) eqn:Ea, (truthy_str b) eqn:Eb;
    repeat (cbn iota; rewrite ?Ea, ?Eb); reflexivity.
Qed.

Lemma or_str_idem3 a b c :
  or_str (or_str (or_str (or_str a b) c) b) c = or_str (or_str a b) c.
Proof.
  unfold or_str.
  destruct (truthy_str a) eqn:Ea, (truthy_str b) eqn:Eb,
    (truthy_str c) eqn:Ec;
    repeat (cbn iota; rewrite ?Ea, ?Eb, ?Ec); reflexivity.
Qed.

Lemma set_defaults_idem st k a :
  set_defaults C st k (set_defaults C st k a) = set_defaults C st k a.
Proof.
  unfold set_defaults; simpl.
  by rewrite !or_str_idem, or_str_idem3.
Qed.

(** Publishing an entry again, as the first run left it, builds the same
    schema and leaves the entry as it is. *)
Lemma publish_entry_again svc sch k h :
  publish_entry C svc sch k (publish_entry C svc sch k h).2
  = publish_entry C svc sch k h.
Proof.
  unfold publish_entry.
  destruct h as [f|d]; [reflexivity|]. cbn [as_action].
  destruct (publish d) as [[|]|] eqn:Ep; cbn [snd as_action];
    try change (publish (set_defaults C (svc_settings svc) k d))
      with (publish d);
    rewrite Ep; rewrite ?set_defaults_idem; reflexivity.
Qed.

Lemma publish_entries_again svc acts : forall sch,
  publish_entries C svc sch (publish_entries C svc sch acts).2
  = publish_entries C svc sch acts.
Proof.
  induction acts as [|[k h] acts IH]; intros sch; simpl; [done|].
  pose proof (publish_entry_again svc sch k h) as H1.
  destruct (publish_entry C svc sch k h) as [sch1 h1] eqn:E1. simpl in H1.
  pose proof (IH sch1) as H2.
  destruct (publish_entries C svc sch1 acts) as [sch2 acts2] eqn:E2.
  simpl in *. by rewrite H1, H2.
Qed.



(** C1, as amended: in the request/response routes of a published
    service, the routes that carry an action name come first (four per
    published action, the last action first), and the shortcut routes of
    the actions with a [defaultMethod] come after all of them, in the
    order of the actions. *)
Theorem shortcut_routes_follow_generic svc acts :
  s_rest (svc_settings svc) = true ->
  svc_actions svc = Some acts ->
  let ns := namespace (initial_schema svc) in
  let idp := idParamName (initial_schema svc) in
  let published := published_descriptors C svc acts in
  published_rest (publishActions C svc)
  = (flat_map (generic_routes svc ns idp) (rev published)
     ++ flat_map (shortcut_routes svc ns idp) published)%list
  /\ length (flat_map (generic_routes svc ns idp) (rev published))
     = 4 * length published.
Proof.
  intros Hrest Ha ns idp published. split.
  - rewrite (published_rest_eq svc acts Ha).
    rewrite (publish_entries_rest svc acts _ Hrest).
    by rewrite initial_rest_empty.
  - rewrite <- (length_rev published).
    induction (rev published) as [|a l IH]; simpl; [done|]. rewrite IH. lia.
Qed.

(** C2, as amended: an action whose descriptor has [publish] set to
    [false] adds nothing to the request/response routes nor to the
    channel routes: both are what they are without the entry.  The
    query-protocol schema is handed on as the service declares it. *)
Theorem unpublished_action_adds_no_route svc pre k h post :
  svc_actions svc = Some (pre ++ (k, h) :: post)%list ->
  publish (as_action h) = Some false ->
  published_rest (publishActions C svc)
  = published_rest (publishActions C (set_actions svc (pre ++ post)))
  /\ published_ws (publishActions C svc)
     = published_ws (publishActions C (set_actions svc (pre ++ post)))
  /\ published_graphql (publishActions C svc)
     = if s_graphql (svc_settings svc) then svc_graphql svc else None.
Proof.
  intros Ha Hp.
  unfold published_rest, published_ws, published_graphql.
  rewrite (returned_actions svc _ Ha), returned_set_actions.
  rewrite (publish_entries_skip svc _ pre k h post Hp).
  repeat split.
  destruct (publish_entries C svc (initial_schema svc) (pre ++ post)%list) as [sch a] eqn:E.
  simpl.
  destruct (s_graphql (svc_settings svc)); simpl; [done|].
  clear Ha. revert sch a E. generalize (pre ++ post)%list. intros l.
  assert (G : forall l sch, graphql (publish_entries C svc sch l).1 = graphql sch).
  { clear. induction l as [|[k h] l IH]; intros sch; simpl; [done|].
    pose proof (publish_entry_namespace svc sch k h) as (_ & _ & Hg & _).
    destruct (publish_entry C svc sch k h) as [sch1 h1].
    specialize (IH sch1).
    destruct (publish_entries C svc sch1 l) as [sch2 l2]. simpl in *.
    congruence. }
  intros sch a E. specialize (G l (initial_schema svc)).
  rewrite E in G. simpl in G. done.
Qed.


(** C9: publishing is deterministic and idempotent.  A second run of
    [publishActions], on the service as the first run left it, returns
    the same schema (the same routes in the same order, none of them
    twice), hands the same schema to the broker in one call, and leaves
    the descriptors as the first run left them. *)
Theorem publishActions_idempotent svc :
  let first := publishActions C svc in
  let second := publishActions C (p_service first) in
  p_returned second = p_returned first /\
  p_calls second = p_calls first /\
  p_service second = p_service first /\
  published_rest second = published_rest first /\
  published_ws second = published_ws first.
Proof.
  intros first second.
  assert (H : second = first).
  { subst first second. unfold publishActions at 2 3.
    destruct (svc_actions svc) as [acts|] eqn:Ha.
    - destruct (publish_entries C svc (initial_schema svc) acts)
        as [sch acts'] eqn:E.
      unfold publishActions. cbn [p_service set_actions svc_actions].
      change (initial_schema (set_actions svc acts')) with (initial_schema svc).
      rewrite publish_entries_set_actions.
      pose proof (publish_entries_again svc acts (initial_schema svc)) as H.
      rewrite E in H. simpl in H. rewrite H. reflexivity.
    - unfold publishActions. simpl. by rewrite Ha. }
  by rewrite H.
Qed.

End Publishing.

Lemma rename_routes :
  published_rest (publishActions C0 docs_service)
  = (rev rename_generic ++ [rename_shortcut])%list.
Proof. reflexivity. Qed.

(** C1, the claim as it stands fails: for [rename] with [defaultMethod]
    ["put"], [needModel] true, namespace ["docs"] and [hashedIdentity]
    false, the route [PUT /docs/:id] is the last of the five routes, not
    ahead of the four generic ones. *)
Lemma rename_shortcut_not_ahead :
  last (published_rest (publishActions C0 docs_service)) = Some rename_shortcut
  /\ ~ placed_ahead rename_shortcut rename_generic
         (published_rest (publishActions C0 docs_service)).
Proof.
  rewrite rename_routes. split; [reflexivity|].
  intros (pre & post & Heq & Hall).
  assert (Hpost : post = []).
  { cbn in Heq.
    do 5 (destruct pre as [|? pre]; [by inversion Heq | inversion Heq; subst; clear Heq;
          match goal with H : _ = (pre ++ _)%list |- _ => rename H into Heq end]).
    by destruct pre. }
  subst post.
  specialize (Hall _ (list_elem_of_here _ _)).
  by apply elem_of_nil in Hall.
Qed.

Lemma shortcut_routes_follow_generic_witness :
  published_rest (publishActions C0 docs_service)
  = (rev rename_generic ++ [rename_shortcut])%list.
Proof.
  exact (proj1 (shortcut_routes_follow_generic C0 docs_service
                  [("rename", Full rename_action)] eq_refl eq_refl)).
Defined.

(** C2, the claim as it stands fails: the action [me] of the session
    service has [publish] set to [false], and the query-protocol schema
    that is published still binds [Query.me] to it. *)
Lemma unpublished_action_still_bound :
  publish (as_action (Full me_action)) = Some false
  /\ exists g,
      published_graphql (publishActions C0 session_service) = Some g
      /\ ("Query", "me", "me") ∈ resolver_bindings g.
Proof.
  split; [reflexivity|].
  exists session_graphql. split; [reflexivity|]. left.
Qed.

Lemma unpublished_action_adds_no_route_witness :
  published_rest (publishActions C0 session_service)
  = published_rest
      (publishActions C0 (set_actions session_service [("onlineUsers", Inline 3)]))
  /\ published_ws (publishActions C0 session_service)
     = published_ws
         (publishActions C0 (set_actions session_service [("onlineUsers", Inline 3)])).
Proof.
  destruct (unpublished_action_adds_no_route C0 session_service []
              "me" (Full me_action) [("onlineUsers", Inline 3)]
              eq_refl eq_refl) as (H1 & H2 & _).
  split; [exact H1 | exact H2].
Defined.



(* ===================================================================== *)
(** * The ownership check *)
(* ===================================================================== *)

Lemma has_role_elem roles r : has_role roles r = true <-> r ∈ roles.
Proof.
  unfold has_role. rewrite existsb_exists. split.
  - intros (x & Hin & Heq). apply String.eqb_eq in Heq. subst.
    by apply list_elem_of_In.
  - intros Hin. exists r. split; [by apply list_elem_of_In|].
    apply String.eqb_refl.
Qed.

Section Ownership.
Context (C : constants) (L : library).

(** C7: [checkModelOwner] returns the model when the owner field equals
    the identifier of the caller or the caller has the administrator
    role, and fails with [FORBIDDEN] otherwise; with the administrator
    role it passes whatever the owner field holds; the caller [u2] with
    the role [user] is refused on the entity owned by [u1]. *)
Theorem checkModelOwner_owner_or_admin model fieldName user code :
  let owner := loose_eq L (obj_get model fieldName) (u_id user) = true in
  let admin := ROLE_ADMIN C ∈ u_roles user in
  let forbidden :=
    RequestError FORBIDDEN ERR_ONLY_OWNER_CAN_EDIT_AND_DELETE
      (default "app:YouAreNotTheOwner" code) in
  (owner \/ admin -> checkModelOwner C L model fieldName user code = Ok model)
  /\ (~ (owner \/ admin) ->
      checkModelOwner C L model fieldName user code = Err forbidden)
  /\ (admin -> checkModelOwner C L model fieldName user code = Ok model)
  /\ (ROLE_ADMIN C <> "user" ->
      checkModelOwner C L scenario_entity "owner" user_u2 None
      = Err (RequestError FORBIDDEN ERR_ONLY_OWNER_CAN_EDIT_AND_DELETE
               "app:YouAreNotTheOwner")).
Proof.
  intros owner admin forbidden. subst owner admin forbidden.
  unfold checkModelOwner.
  destruct (loose_eq L (obj_get model fieldName) (u_id user)) eqn:Eo;
    destruct (has_role (u_roles user) (ROLE_ADMIN C)) eqn:Ea; simpl.
  all: repeat split; try done.
  all: try (intros H; exfalso; apply H; by left).
  all: try (intros H; exfalso; apply H; right; by apply has_role_elem).
  all: try (intros [H|H]; [done | apply has_role_elem in H; congruence]).
  all: try (intros H; apply has_role_elem in H; congruence).
  all: intros Hne; destruct (String.eqb (ROLE_ADMIN C) "user") eqn:E;
    [apply String.eqb_eq in E; done | reflexivity].
Qed.

End Ownership.

Lemma checkModelOwner_owner_or_admin_witness :
  checkModelOwner C0 L0 scenario_entity "owner" admin_u2 None = Ok scenario_entity
  /\ checkModelOwner C0 L0 scenario_entity "owner" user_u2 None
     = Err (RequestError FORBIDDEN ERR_ONLY_OWNER_CAN_EDIT_AND_DELETE
              "app:YouAreNotTheOwner").
Proof.
  pose proof (checkModelOwner_owner_or_admin C0 L0 scenario_entity "owner"
                admin_u2 None) as (_ & _ & Hadmin & Hscen).
  split.
  - apply Hadmin. simpl. apply list_elem_of_In. simpl. auto.
  - apply Hscen. simpl. discriminate.
Defined.

(* ===================================================================== *)
(** * Resolution of models *)
(* ===================================================================== *)

Section Resolution.
Context (L : library).

Lemma length_zero_string s :
  (Z.of_nat (String.length s) =? 0)%Z = true <-> s = "".
Proof.
  destruct s; simpl; split; done.
Qed.

Lemma length_zero_list {A} (l : list A) :
  (Z.of_nat (length l) =? 0)%Z = true <-> l = [].
Proof.
  destruct l; simpl; split; done.
Qed.

(** The test of line 323, in words. *)
Lemma invalid_id_spec id :
  invalid_id L id = true <-> absent_or_empty L id.
Proof.
  unfold invalid_id, absent_or_empty.
  destruct id as [| |b|n|s|l|fs|nm]; simpl.
  - split; [by left | done].
  - split; [by right; left | done].
  - split; [done |].
    by intros [H|[H|[H|[H|[(fs' & H & H')|(nm' & H & H')]]]]].
  - split; [done |].
    by intros [H|[H|[H|[H|[(fs' & H & H')|(nm' & H & H')]]]]].
  - rewrite length_zero_string. split.
    + intros ->. by right; right; left.
    + intros [H|[H|[H|[H|[(fs' & H & H')|(nm' & H & H')]]]]]; try done.
      by inversion H.
  - rewrite length_zero_list. split.
    + intros ->. by right; right; right; left.
    + intros [H|[H|[H|[H|[(fs' & H & H')|(nm' & H & H')]]]]]; try done.
      by inversion H.
  - split.
    + intros H. do 4 right. left. by exists fs.
    + intros [H|[H|[H|[H|[(fs' & H & H')|(nm' & H & H')]]]]]; try done.
      by inversion H; subst.
  - split.
    + intros H. do 5 right. by exists nm.
    + intros [H|[H|[H|[H|[(fs' & H & H')|(nm' & H & H')]]]]]; try done.
      by inversion H; subst.
Qed.

Lemma resolveID_error svc ctx e :
  resolveID svc ctx = Err e -> exists msg, e = TypeError msg.
Proof.
  unfold resolveID.
  destruct (truthy _ && _); [|done].
  destruct (collection svc) as [coll|]; [|intros [= <-]; eauto].
  destruct (decodeID coll); [|done].
  by destruct (prm_code (ctx_params ctx)).
Qed.

Lemma run_jobs_error ctx jobs : forall items e,
  run_jobs L ctx jobs items = Err e ->
  exists a p, ctx_call ctx a p = Err e.
Proof.
  induction jobs as [|j jobs IH]; intros items e; simpl; [done|].
  destruct (ctx_call ctx (j_action j) (populate_params (j_ids j))) eqn:E.
  - apply IH.
  - intros [= <-]. eauto.
Qed.

Lemma populateModels_error svc ctx d sch e :
  (populateModels svc L ctx d sch).2 = Err e ->
  exists a p, ctx_call ctx a p = Err e.
Proof.
  unfold populateModels.
  destruct d; simpl; try done;
    (destruct sch as [s|]; [|destruct (s_modelPopulates (svc_settings svc)) as [s|]];
     try done;
     (destruct (0 <? length _)%nat; [|done]); simpl;
     (destruct (run_jobs L ctx _ _) eqn:E; [done|]);
     intros [= <-]; by eapply run_jobs_error).
Qed.

Lemma populate_if_asked_error svc ctx d e :
  (populate_if_asked svc L ctx d).2 = Err e ->
  exists a p, ctx_call ctx a p = Err e.
Proof.
  unfold populate_if_asked.
  destruct (prm_populate (ctx_params ctx)) as [| |[|]| | | | |]; try done.
  apply populateModels_error.
Qed.

Lemma shape_result_error svc ctx d e :
  shape_result svc L ctx d = Err e -> exists msg, e = TypeError msg.
Proof.
  unfold shape_result.
  destruct d, (prm_resultAsObject (ctx_params ctx)) as [| |[|]| | | | |];
    try destruct (docs_as_object _ _ _ _);
    try destruct (negb _); try done; intros [= <-]; eauto.
Qed.

(** A run that stops at the test of line 323 has looked nothing up. *)
Lemma resolveModel_invalid svc ctx id :
  resolveID svc ctx = Ok id -> invalid_id L id = true ->
  resolveModel svc L ctx = ([], Err invalid_code).
Proof. intros H1 H2. unfold resolveModel. by rewrite H1, H2. Qed.

(** A run that passes the test makes a lookup first, unless there is no
    collection to look in. *)
Lemma resolveModel_valid svc ctx id :
  resolveID svc ctx = Ok id -> invalid_id L id = false ->
  (exists msg, resolveModel svc L ctx = ([], Err (TypeError msg)))
  \/ (exists ev evs r, resolveModel svc L ctx = (ev :: evs, r)).
Proof.
  intros H1 H2. unfold resolveModel. rewrite H1, H2.
  destruct (collection svc) as [coll|]; [right | left; eauto].
  destruct (lookup_docs coll id) as [ev [d|e]]; [|eauto].
  destruct (populate_if_asked svc L ctx d) as [calls [d'|e']]; eauto.
Qed.

Lemma lookup_docs_error coll id ev e :
  lookup_docs coll id = (ev, Err e) ->
  (exists ids, find coll ids = Err e) \/ (exists i, findById coll i = Err e).
Proof.
  unfold lookup_docs.
  destruct id as [| |b|n|s|l|fs|nm];
    try (destruct (findById coll _) eqn:E; intros [= <- <-]; right; eauto).
  destruct (find coll l) eqn:E; intros [= <- <-]. left; eauto.
Qed.

(** C3: [resolveModel] fails with the invalid-identifier error, having
    looked nothing up, exactly when the identifier that [resolveID]
    gives is absent, empty or of zero length; as long as no collaborator
    rejects with that same error, these are the only runs that fail with
    it; and a request with a code only, on a service with
    [hashedIdentity] whose collection has no [decodeID], fails with
    it. *)
Theorem resolveModel_invalid_identifier svc ctx :
  (resolveModel svc L ctx = ([], Err invalid_code)
   <-> exists id, resolveID svc ctx = Ok id /\ absent_or_empty L id)
  /\ ((forall coll ids, collection svc = Some coll ->
                        find coll ids <> Err invalid_code) ->
      (forall coll i, collection svc = Some coll ->
                      findById coll i <> Err invalid_code) ->
      (forall a p, ctx_call ctx a p <> Err invalid_code) ->
      ((resolveModel svc L ctx).2 = Err invalid_code
       <-> exists id, resolveID svc ctx = Ok id /\ absent_or_empty L id))
  /\ (forall coll,
        s_hashedIdentity (svc_settings svc) = true ->
        collection svc = Some coll ->
        decodeID coll = None ->
        prm_id (ctx_params ctx) = VUndef ->
        resolveModel svc L ctx = ([], Err invalid_code)).
Proof.
  assert (Hback : forall id, resolveID svc ctx = Ok id ->
                             absent_or_empty L id ->
                             resolveModel svc L ctx = ([], Err invalid_code)).
  { intros id H1 H2. apply (resolveModel_invalid svc ctx id H1).
    by apply invalid_id_spec. }
  split; [|split].
  - split; [|intros (id & H1 & H2); eauto].
    intros H. destruct (resolveID svc ctx) as [id|e] eqn:Eid.
    + exists id. split; [done|]. apply invalid_id_spec.
      destruct (invalid_id L id) eqn:Ei; [done|].
      destruct (resolveModel_valid svc ctx id Eid Ei)
        as [(msg & Hm)|(ev & evs & r & Hm)]; rewrite Hm in H; done.
    + unfold resolveModel in H. rewrite Eid in H.
      destruct (resolveID_error svc ctx e Eid) as (msg & ->). done.
  - intros Hfind Hby Hcall.
    split; [|intros (id & H1 & H2); by rewrite (Hback id H1 H2)].
    intros H. unfold resolveModel in H.
    destruct (resolveID svc ctx) as [id|e] eqn:Eid.
    + exists id. split; [done|]. apply invalid_id_spec.
      destruct (invalid_id L id) eqn:Ei; [done|]. exfalso.
      destruct (collection svc) as [coll|] eqn:Ec; [|done].
      destruct (lookup_docs coll id) as [ev [d|e]] eqn:El.
      * destruct (populate_if_asked svc L ctx d) as [calls [d'|e']] eqn:Ep.
        -- simpl in H. apply shape_result_error in H as (msg & Hm). done.
        -- simpl in H. injection H as ->.
           destruct (populate_if_asked_error svc ctx d invalid_code)
             as (a & p & Hc); [by rewrite Ep|].
           by apply (Hcall a p).
      * simpl in H. injection H as ->.
        apply lookup_docs_error in El as [(ids & Hf)|(i & Hf)].
        -- by apply (Hfind coll ids).
        -- by apply (Hby coll i).
    + simpl in H. destruct (resolveID_error svc ctx e Eid) as (msg & ->).
      done.
  - intros coll Hh Hc Hd Hid. apply (Hback VUndef); [|by left].
    unfold resolveID. rewrite Hh, Hc, Hd, Hid.
    by destruct (truthy (prm_code (ctx_params ctx))).
Qed.










(** What the last step does with a single entity: it never builds the
    object indexed by identifier, whatever [resultAsObject] holds. *)
Lemma shape_result_single svc ctx e :
  shape_result svc L ctx (DOne e)
  = if is_nullish (prm_propFilter (ctx_params ctx)) then Ok (ROne e)
    else Err (TypeError "docs.map is not a function").
Proof.
  unfold shape_result.
  destruct (prm_resultAsObject (ctx_params ctx)) as [| |[|]| | | | |];
    by destruct (is_nullish _).
Qed.

Lemma shape_result_absent svc ctx :
  shape_result svc L ctx DUndef
  = if is_nullish (prm_propFilter (ctx_params ctx)) then Ok RUndef
    else Err (TypeError "Cannot read property 'map' of undefined").
Proof.
  unfold shape_result.
  destruct (prm_resultAsObject (ctx_params ctx)) as [| |[|]| | | | |];
    by destruct (is_nullish _).
Qed.

Lemma run_jobs_call ctx ctx' jobs : forall items,
  ctx_call ctx' = ctx_call ctx ->
  run_jobs L ctx' jobs items = run_jobs L ctx jobs items.
Proof.
  induction jobs as [|j jobs IH]; intros items Hc; simpl; [done|].
  rewrite Hc. destruct (ctx_call ctx _ _); [|done]. by apply IH.
Qed.

Lemma populate_if_asked_with svc ctx v d :
  populate_if_asked svc L (with_resultAsObject ctx v) d
  = populate_if_asked svc L ctx d.
Proof.
  unfold populate_if_asked.
  change (prm_populate (ctx_params (with_resultAsObject ctx v)))
    with (prm_populate (ctx_params ctx)).
  destruct (prm_populate (ctx_params ctx)) as [| |[|]| | | | |]; try done.
  unfold populateModels.
  destruct d as [|e|es]; [done| |];
    (destruct (s_modelPopulates (svc_settings svc)) as [s|]; [|done]);
    cbv zeta; by rewrite (run_jobs_call ctx (with_resultAsObject ctx v)).
Qed.

(** Population keeps the shape of the documents: one document stays one
    document, none stays none. *)
Lemma populate_if_asked_shape svc ctx d calls d' :
  populate_if_asked svc L ctx d = (calls, Ok d') ->
  match d with
  | DUndef => d' = DUndef
  | DOne _ => exists e', d' = DOne e'
  | DMany _ => exists es', d' = DMany es'
  end.
Proof.
  unfold populate_if_asked, populateModels.
  destruct (prm_populate (ctx_params ctx)) as [| |[|]| | | | |];
    try (intros [= _ <-]; destruct d; eauto).
  destruct d as [|e|es]; [by intros [= _ <-]| |];
    (destruct (s_modelPopulates (svc_settings svc)) as [s|];
     [|intros [= _ <-]; eauto]);
    (destruct (0 <? length _)%nat; [|intros [= _ <-]; eauto]);
    (destruct (run_jobs L ctx _ _); [|done]);
    intros [= _ <-]; simpl; eauto.
Qed.

(** C10: on a point lookup, where [resolveID] gives an identifier that is
    not a sequence, the parameter [resultAsObject] has no effect:
    [resolveModel] makes the same lookups and calls and gives the same
    result whatever it holds; the result is never an object indexed by
    identifier; and the entity found, populated if asked, is what the
    promise holds, as it is, as long as no [propFilter] is given (with
    one, the last step fails with a [TypeError], with and without
    [resultAsObject]). *)
Theorem resolveModel_point_lookup_ignores_resultAsObject svc ctx id :
  resolveID svc ctx = Ok id ->
  isArray id = false ->
  (forall v,
     resolveModel svc L (with_resultAsObject ctx v) = resolveModel svc L ctx)
  /\ (forall m proto, (resolveModel svc L ctx).2 <> Ok (RObject m proto))
  /\ (forall coll found calls e,
        invalid_id L id = false ->
        collection svc = Some coll ->
        findById coll id = Ok (Some found) ->
        populate_if_asked svc L ctx (DOne (doc_toJSON found))
        = (calls, Ok (DOne e)) ->
        resolveModel svc L ctx
        = (EvFindById id :: calls,
           if is_nullish (prm_propFilter (ctx_params ctx)) then Ok (ROne e)
           else Err (TypeError "docs.map is not a function"))).
Proof.
  intros Hid Harr.
  assert (Hlook : forall coll,
            lookup_docs coll id
            = (EvFindById id,
               match findById coll id with
               | Ok d => Ok (docs_of_one d)
               | Err e => Err e
               end)).
  { intros coll. by destruct id. }
  split; [|split].
  - intros v. unfold resolveModel.
    change (resolveID svc (with_resultAsObject ctx v)) with (resolveID svc ctx).
    rewrite Hid. destruct (invalid_id L id); [done|].
    destruct (collection svc) as [coll|]; [|done].
    rewrite Hlook. destruct (findById coll id) as [d|e]; [|done].
    rewrite populate_if_asked_with.
    destruct (populate_if_asked svc L ctx (docs_of_one d))
      as [calls [d'|e']] eqn:Ep; [|done].
    apply populate_if_asked_shape in Ep.
    destruct d as [found|]; simpl in Ep.
    + destruct Ep as (e' & ->). by rewrite !shape_result_single.
    + subst d'. by rewrite !shape_result_absent.
  - intros m proto. unfold resolveModel. rewrite Hid.
    destruct (invalid_id L id); [done|].
    destruct (collection svc) as [coll|]; [|done].
    rewrite Hlook. destruct (findById coll id) as [d|e]; [|done].
    destruct (populate_if_asked svc L ctx (docs_of_one d))
      as [calls [d'|e']] eqn:Ep; [|done].
    apply populate_if_asked_shape in Ep.
    destruct d as [found|]; simpl in Ep.
    + destruct Ep as (e' & ->). cbn [snd]. rewrite shape_result_single.
      by destruct (is_nullish _).
    + subst d'. cbn [snd]. rewrite shape_result_absent.
      by destruct (is_nullish _).
  - intros coll found calls e Hv Hc Hf Hp.
    unfold resolveModel. rewrite Hid, Hv, Hc, Hlook, Hf. simpl.
    rewrite Hp. by rewrite shape_result_single.
Qed.

End Resolution.

Lemma resolveModel_invalid_identifier_witness :
  resolveModel hashed_service L0 (ctx_of params_code_XYZ)
  = ([], Err invalid_code)
  /\ (resolveModel hashed_service L0 (ctx_of (params_id (VStr "")))).2
     = Err invalid_code.
Proof.
  split.
  - exact (proj2 (proj2 (resolveModel_invalid_identifier L0 hashed_service
                           (ctx_of params_code_XYZ)))
             (store_of [scenario_entity]) eq_refl eq_refl eq_refl eq_refl).
  - apply (proj1 (proj2 (resolveModel_invalid_identifier L0 hashed_service
                           (ctx_of (params_id (VStr "")))))).
    + intros coll ids [= <-]. simpl. discriminate.
    + intros coll i [= <-]. simpl. discriminate.
    + intros a p. simpl. discriminate.
    + exists (VStr ""). split; [reflexivity|]. right; right; left. reflexivity.
Defined.



Lemma resolveModel_point_lookup_ignores_resultAsObject_witness :
  resolveModel docs_store_service L0
    (with_resultAsObject (ctx_of params_single) VUndef)
  = resolveModel docs_store_service L0 (ctx_of params_single)
  /\ resolveModel docs_store_service L0 (ctx_of params_single)
     = ([EvFindById (VStr "a")], Ok (ROne scenario_entity))
  /\ resolveModel docs_store_service L0 (ctx_of params_single_filtered)
     = ([EvFindById (VStr "a")],
        Err (TypeError "docs.map is not a function")).
Proof.
  pose proof (resolveModel_point_lookup_ignores_resultAsObject L0
                docs_store_service (ctx_of params_single) (VStr "a")
                eq_refl eq_refl) as (H1 & _ & H3).
  pose proof (resolveModel_point_lookup_ignores_resultAsObject L0
                docs_store_service (ctx_of params_single_filtered) (VStr "a")
                eq_refl eq_refl) as (_ & _ & H3').
  split; [|split].
  - exact (H1 VUndef).
  - exact (H3 (store_of [scenario_entity]) (Model scenario_entity) []
              scenario_entity eq_refl eq_refl eq_refl eq_refl).
  - exact (H3' (store_of [scenario_entity]) (Model scenario_entity) []
               scenario_entity eq_refl eq_refl eq_refl eq_refl).
Defined.

(* ===================================================================== *)
(** * Population *)
(* ===================================================================== *)

Section Population.
Context (svc : Service) (L : library) (ctx : Context).

Lemma obj_get_set_eq o k v : obj_get (obj_set o k v) k = v.
Proof.
  induction o as [|[k' w] o IH]; simpl.
  - by rewrite String.eqb_refl.
  - destruct (String.eqb k' k) eqn:E; simpl; rewrite E; [done | apply IH].
Qed.

Lemma obj_get_set_ne o k k' v :
  k <> k' -> obj_get (obj_set o k v) k' = obj_get o k'.
Proof.
  intros Hne. induction o as [|[k0 w] o IH]; simpl.
  - destruct (String.eqb k k') eqn:E; [|done].
    by apply String.eqb_eq in E.
  - destruct (String.eqb k0 k) eqn:E; simpl.
    + apply String.eqb_eq in E. subst k0.
      destruct (String.eqb k k') eqn:E'; [|done].
      by apply String.eqb_eq in E'.
    + destruct (String.eqb k0 k'); [done | apply IH].
Qed.

Lemma has_own_set_eq o k v : has_own (obj_set o k v) k = true.
Proof.
  unfold has_own. induction o as [|[k' w] o IH]; simpl.
  - by rewrite String.eqb_refl.
  - destruct (String.eqb k' k) eqn:E; simpl; rewrite E; [done | apply IH].
Qed.

Lemma has_own_set_ne o k k' v :
  k <> k' -> has_own (obj_set o k v) k' = has_own o k'.
Proof.
  intros Hne. unfold has_own. induction o as [|[k0 w] o IH]; simpl.
  - destruct (String.eqb k k') eqn:E; [|done].
    by apply String.eqb_eq in E.
  - destruct (String.eqb k0 k) eqn:E; simpl; [done|]. by rewrite IH.
Qed.

Lemma obj_get_not_own o k : has_own o k = false -> obj_get o k = VUndef.
Proof.
  unfold has_own. induction o as [|[k' w] o IH]; simpl; [done|].
  destruct (String.eqb k' k); simpl; [done | apply IH].
Qed.

(** Off the members of [Object.prototype], reading a field is reading an
    own property and writing it is writing one. *)
Lemma get_field_plain doc f : plain_name f -> get_field doc f = obj_get doc f.
Proof.
  unfold get_field, plain_name. intros ->.
  destruct (has_own doc f) eqn:E; [done|]. by rewrite obj_get_not_own.
Qed.

Lemma set_field_plain doc f v : plain_name f -> set_field doc f v = obj_set doc f v.
Proof.
  unfold set_field, plain_name, object_prototype. intros H.
  destruct (String.eqb f "__proto__") eqn:E; [|done].
  apply String.eqb_eq in E. subst f. done.
Qed.

Lemma same_field_refl f d : same_field f d d.
Proof. by split. Qed.

Lemma same_field_trans f d1 d2 d3 :
  same_field f d1 d2 -> same_field f d2 d3 -> same_field f d1 d3.
Proof. intros [H1 H2] [H3 H4]. split; congruence. Qed.

Lemma get_field_same f d1 d2 :
  same_field f d1 d2 -> get_field d1 f = get_field d2 f.
Proof. intros [H1 H2]. unfold get_field. by rewrite H1, H2. Qed.

(** A write under one name changes nothing under another. *)
Lemma set_field_other f f' d v :
  f <> f' -> same_field f' (set_field d f v) d.
Proof.
  intros Hne. unfold set_field.
  destruct (String.eqb f "__proto__" && negb (has_own d f));
    [apply same_field_refl|].
  split; [by apply has_own_set_ne | by apply obj_get_set_ne].
Qed.

Lemma set_field_same f d1 d2 v :
  same_field f d1 d2 -> same_field f (set_field d1 f v) (set_field d2 f v).
Proof.
  intros [H1 H2]. unfold set_field. rewrite H1.
  destruct (String.eqb f "__proto__" && negb (has_own d2 f)); [by split|].
  split; [by rewrite !has_own_set_eq | by rewrite !obj_get_set_eq].
Qed.

Lemma replace_field_eq f pd doc :
  replace_field L f pd doc
  = set_field doc f (populated_value L pd (get_field doc f)).
Proof. unfold replace_field, populated_value. by destruct (get_field doc f). Qed.

Lemma replace_field_same f pd d1 d2 :
  same_field f d1 d2 ->
  same_field f (replace_field L f pd d1) (replace_field L f pd d2).
Proof.
  intros H. rewrite !replace_field_eq, (get_field_same f d1 d2 H).
  by apply set_field_same.
Qed.

Lemma replace_field_other f f' pd doc :
  f <> f' -> same_field f' (replace_field L f pd doc) doc.
Proof. intros Hne. rewrite replace_field_eq. by apply set_field_other. Qed.

Lemma replace_field_plain f pd doc :
  plain_name f ->
  obj_get (replace_field L f pd doc) f = populated_value L pd (obj_get doc f).
Proof.
  intros Hp. rewrite replace_field_eq, set_field_plain, get_field_plain by done.
  apply obj_get_set_eq.
Qed.

(** A tolerant join: with entities as answers, and identifiers whose
    keys name no member of [Object.prototype], the identifiers that are
    not answered are dropped and the others keep their order. *)
Lemma compact_populated (pd : gmap string value) ids :
  map_Forall (fun _ v => is_entity v) pd ->
  Forall (plain_key L) ids ->
  compact (map (populated L pd) ids) = omap (fun id => pd !! to_key L id) ids.
Proof.
  intros Hent Hplain. unfold compact.
  induction Hplain as [|id ids Hid _ IH]; simpl; [done|].
  rewrite filter_cons, IH. unfold populated.
  destruct (pd !! to_key L id) as [v|] eqn:E; simpl.
  - specialize (Hent _ _ E). destruct v; try done.
  - unfold plain_key in Hid. by rewrite Hid.
Qed.

Lemma populated_plain (pd : gmap string value) id :
  plain_key L id -> populated L pd id = default VUndef (pd !! to_key L id).
Proof.
  unfold populated, plain_key. intros ->. by destruct (pd !! to_key L id).
Qed.

Lemma length_pos_nonempty {A} (l : list A) :
  (0 <? length l)%nat = true <-> l <> [].
Proof. destruct l; simpl; split; done. Qed.

(** The calls of the loop, entry by entry. *)
Lemma populate_jobs_events items schema :
  map job_event (populate_jobs items schema)
  = omap (fun e => match e.2 with
                   | VStr a =>
                       if decide (idList items e.1 = []) then None
                       else Some (EvCall a (populate_params (idList items e.1)))
                   | _ => None
                   end) schema.
Proof.
  induction schema as [|[f t] schema IH]; simpl; [done|].
  destruct t; simpl; try apply IH.
  destruct (idList items f) as [|x l] eqn:E; simpl.
  - apply IH.
  - unfold job_event at 1. simpl. by rewrite IH.
Qed.

Lemma populate_jobs_fields items schema :
  sublist (map j_field (populate_jobs items schema)) (map fst schema).
Proof.
  induction schema as [|[f t] schema IH]; simpl; [constructor|].
  destruct t; try by apply sublist_cons.
  destruct (0 <? length _)%nat; simpl.
  - by apply sublist_skip.
  - by apply sublist_cons.
Qed.

Lemma populate_jobs_elem items schema j :
  j ∈ populate_jobs items schema ->
  (j_field j, VStr (j_action j)) ∈ schema
  /\ j_ids j = idList items (j_field j) /\ j_ids j <> [].
Proof.
  induction schema as [|[f t] schema IH]; simpl.
  - intros H. by apply elem_of_nil in H.
  - assert (Hrest : j ∈ populate_jobs items schema ->
                    (j_field j, VStr (j_action j)) ∈ (f, t) :: schema
                    /\ j_ids j = idList items (j_field j) /\ j_ids j <> []).
    { intros H. destruct (IH H) as (H1 & H2 & H3).
      split; [by right | done]. }
    destruct t; try done.
    destruct (0 <? length (idList items f))%nat eqn:E; [|done].
    intros [->|H]%elem_of_cons; [|by apply Hrest]. simpl.
    split; [left | split; [done | by apply length_pos_nonempty]].
Qed.

Lemma populate_jobs_complete items schema f a :
  (f, VStr a) ∈ schema -> idList items f <> [] ->
  {| j_field := f; j_action := a; j_ids := idList items f |}
    ∈ populate_jobs items schema.
Proof.
  intros Hin Hne. induction schema as [|[f' t] schema IH]; simpl.
  - by apply elem_of_nil in Hin.
  - apply elem_of_cons in Hin as [[= <- <-]|Hin].
    + apply length_pos_nonempty in Hne. rewrite Hne. left.
    + specialize (IH Hin). destruct t; try done.
      destruct (0 <? length _)%nat; [by right | done].
Qed.

Lemma populate_jobs_nil schema : populate_jobs [] schema = [].
Proof. induction schema as [|[f t] schema IH]; simpl; [done|]. by destruct t. Qed.

Lemma same_value_zero_eq x y : same_value_zero x y = true -> x = y.
Proof.
  destruct x, y; simpl; try done; intros H.
  - by apply Bool.eqb_prop in H as ->.
  - by apply Z.eqb_eq in H as ->.
  - by apply String.eqb_eq in H as ->.
  - by apply String.eqb_eq in H as ->.
Qed.

Lemma elem_of_baseUniq l : forall kept x,
  x ∈ baseUniq kept l <-> x ∈ kept \/ x ∈ l.
Proof.
  induction l as [|y l IH]; intros kept x; simpl.
  - rewrite elem_of_nil. tauto.
  - destruct (existsb (same_value_zero y) kept) eqn:E.
    + rewrite IH, elem_of_cons. split; [tauto|].
      intros [H|[->|H]]; [tauto | | tauto].
      apply existsb_exists in E as (z & Hz & Hyz).
      apply same_value_zero_eq in Hyz as ->.
      left. by apply list_elem_of_In.
    + rewrite IH, elem_of_app, list_elem_of_singleton, elem_of_cons. tauto.
Qed.

(** [_.uniq] keeps every value that occurs. *)
Lemma elem_of_uniq l x : x ∈ uniq l <-> x ∈ l.
Proof. unfold uniq. rewrite elem_of_baseUniq, elem_of_nil. tauto. Qed.

Lemma nonempty_elem {A} (l : list A) : l <> [] <-> exists x, x ∈ l.
Proof.
  destruct l as [|a l]; split; try done.
  - intros (x & Hx). by apply elem_of_nil in Hx.
  - intros _. exists a. left.
Qed.

Lemma flattenDeep_cons x l :
  flattenDeep (x :: l) = (flatten_value x ++ flattenDeep l)%list.
Proof. reflexivity. Qed.

Lemma elem_of_flattenDeep l v :
  v ∈ flattenDeep l <-> exists x, x ∈ l /\ v ∈ flatten_value x.
Proof.
  induction l as [|y l IH].
  - split; [intros H; by apply elem_of_nil in H|].
    intros (x & Hx & _). by apply elem_of_nil in Hx.
  - rewrite flattenDeep_cons, elem_of_app, IH. split.
    + intros [H|(x & Hx & Hv)]; [exists y; split; [left | done]|].
      exists x. split; [by right | done].
    + intros (x & [->|Hx]%elem_of_cons & Hv); [by left|].
      right. by exists x.
Qed.

(** The identifier list of line 240, by its members: the values found
    by flattening the truthy values that the entities hold in the
    field. *)
Lemma elem_of_idList items f v :
  v ∈ idList items f
  <-> exists doc, doc ∈ items /\ truthy (get_field doc f) = true
                  /\ v ∈ flatten_value (get_field doc f).
Proof.
  unfold idList, compact.
  rewrite elem_of_uniq, elem_of_flattenDeep. split.
  - intros (x & [Ht Hx]%list_elem_of_filter & Hv).
    apply list_elem_of_In, in_map_iff in Hx as (doc & <- & Hdoc).
    exists doc. split; [by apply list_elem_of_In | done].
  - intros (doc & Hdoc & Ht & Hv). exists (get_field doc f).
    split; [|done]. apply list_elem_of_filter. split; [done|].
    apply list_elem_of_In, in_map_iff. exists doc.
    split; [done | by apply list_elem_of_In].
Qed.

(** A field is referenced when some entity holds a truthy value in it
    that does not flatten to nothing. *)
Lemma idList_nonempty items f :
  idList items f <> [] <-> referenced items f.
Proof.
  unfold referenced. rewrite nonempty_elem. split.
  - intros (v & (doc & H1 & H2 & H3)%elem_of_idList).
    exists doc. split; [done|]. split; [done|].
    apply nonempty_elem. by exists v.
  - intros (doc & H1 & H2 & (v & Hv)%nonempty_elem).
    exists v. apply elem_of_idList. by exists doc.
Qed.

Lemma populateModels_eq d schema :
  populateModels svc L ctx d (Some schema)
  = (map job_event (populate_jobs (docs_items d) schema),
     match run_jobs L ctx (populate_jobs (docs_items d) schema) (docs_items d) with
     | Ok items' => Ok (with_items d items')
     | Err e => Err e
     end).
Proof.
  unfold populateModels.
  destruct d as [|e|es]; simpl.
  - by rewrite populate_jobs_nil.
  - destruct (populate_jobs [e] schema) as [|j jobs] eqn:E; simpl; done.
  - destruct (populate_jobs es schema) as [|j jobs] eqn:E; simpl; done.
Qed.

Lemma flatten_value_flat (v : value) :
  Forall (fun x => isArray x = false) (flatten_value v).
Proof.
  revert v. fix IH 1. intros [| |b|n|s|l|fs|nm];
    try (simpl; apply Forall_cons_2; [reflexivity | apply Forall_nil_2]).
  simpl. induction l as [|x l IHl]; [constructor|].
  apply Forall_app. split; [apply IH | apply IHl].
Qed.



Lemma same_value_zero_refl x :
  is_primitive x = true -> same_value_zero x x = true.
Proof.
  destruct x; simpl; try done; intros _.
  - by destruct b.
  - apply Z.eqb_refl.
  - apply String.eqb_refl.
  - apply String.eqb_refl.
Qed.

Lemma baseUniq_NoDup l : forall kept,
  NoDup kept ->
  Forall (fun x => is_primitive x = true) l ->
  NoDup (baseUniq kept l).
Proof.
  induction l as [|x l IH]; intros kept Hk Hl; simpl; [done|].
  apply Forall_cons in Hl as [Hx Hl].
  destruct (existsb (same_value_zero x) kept) eqn:E; [by apply IH|].
  apply IH; [|done].
  apply NoDup_app. split; [done|]. split; [|apply NoDup_singleton].
  intros y Hy Hy'. apply list_elem_of_singleton in Hy'. subst y.
  assert (Ht : existsb (same_value_zero x) kept = true); [|congruence].
  apply existsb_exists. exists x.
  split; [by apply list_elem_of_In | by apply same_value_zero_refl].
Qed.



(** The callbacks of a run in which every call resolves. *)
Lemma run_jobs_ok jobs : forall items,
  (forall j, j ∈ jobs ->
             exists pd, ctx_call ctx (j_action j) (populate_params (j_ids j)) = Ok pd) ->
  exists items', run_jobs L ctx jobs items = Ok items'.
Proof.
  induction jobs as [|j jobs IH]; intros items Hall; simpl; [eauto|].
  destruct (Hall j) as (pd & Hpd); [left|]. rewrite Hpd.
  apply IH. intros j' Hj'. apply Hall. by right.
Qed.

(** A run of the callbacks leaves alone what the documents hold under
    the names that are not fields of the calls. *)
Lemma run_jobs_other jobs : forall items items',
  run_jobs L ctx jobs items = Ok items' ->
  length items' = length items /\
  forall i doc doc' f,
    items !! i = Some doc -> items' !! i = Some doc' ->
    f ∉ map j_field jobs -> same_field f doc' doc.
Proof.
  induction jobs as [|j jobs IH]; intros items items'; simpl.
  - intros [= <-]. split; [done|]. intros i doc doc' f H1 H2 _.
    assert (doc' = doc) by congruence. subst. apply same_field_refl.
  - destruct (ctx_call ctx (j_action j) (populate_params (j_ids j)))
      as [pd|e]; [|done].
    intros Hrun. destruct (IH _ _ Hrun) as [Hlen Hget].
    rewrite length_map in Hlen. split; [done|].
    intros i doc doc' f H1 H2 Hf.
    apply not_elem_of_cons in Hf as [Hne Hf].
    assert (Hm : map (replace_field L (j_field j) pd) items !! i
                 = Some (replace_field L (j_field j) pd doc)).
    { change (map ?g ?l) with (g <$> l).
      by rewrite list_lookup_fmap, H1. }
    eapply same_field_trans; [exact (Hget i _ doc' f Hm H2 Hf)|].
    by apply replace_field_other.
Qed.

(** Under the field of a call, the documents hold in the end what the
    callback of that call writes, whatever the other callbacks do. *)
Lemma run_jobs_fields jobs : forall items items',
  run_jobs L ctx jobs items = Ok items' ->
  NoDup (map j_field jobs) ->
  length items' = length items /\
  forall i doc doc',
    items !! i = Some doc -> items' !! i = Some doc' ->
    forall j pd,
      j ∈ jobs ->
      ctx_call ctx (j_action j) (populate_params (j_ids j)) = Ok pd ->
      same_field (j_field j) doc' (replace_field L (j_field j) pd doc).
Proof.
  induction jobs as [|j jobs IH]; intros items items'; simpl.
  - intros [= <-] _. split; [done|].
    intros i doc doc' _ _ j pd Hj. by apply elem_of_nil in Hj.
  - destruct (ctx_call ctx (j_action j) (populate_params (j_ids j)))
      as [pd|e] eqn:Ecall; [|done].
    intros Hrun Hnd. apply NoDup_cons in Hnd as [Hj Hnd].
    destruct (IH _ _ Hrun Hnd) as [Hlen Hget].
    destruct (run_jobs_other _ _ _ Hrun) as [_ Hkeep].
    rewrite length_map in Hlen. split; [done|].
    intros i doc doc' H1 H2 j' pd' Hj' Hcall'.
    assert (Hm : map (replace_field L (j_field j) pd) items !! i
                 = Some (replace_field L (j_field j) pd doc)).
    { change (map ?g ?l) with (g <$> l).
      by rewrite list_lookup_fmap, H1. }
    apply elem_of_cons in Hj' as [->|Hj'].
    + assert (pd' = pd) by congruence. subst pd'.
      exact (Hkeep i _ doc' (j_field j) Hm H2 Hj).
    + eapply same_field_trans; [exact (Hget i _ doc' Hm H2 j' pd' Hj' Hcall')|].
      apply replace_field_same, replace_field_other.
      intros Heq. apply Hj. rewrite Heq.
      apply list_elem_of_In, in_map, list_elem_of_In, Hj'.
Qed.

Lemma docs_items_with_items d items' :
  length items' = length (docs_items d) ->
  docs_items (with_items d items') = items'.
Proof.
  destruct d as [|e|es]; simpl.
  - by destruct items'.
  - destruct items' as [|x [|y l]]; simpl; done.
  - done.
Qed.

(** X26: where neither a field of the schema nor a reference held in
    such a field names a member of [Object.prototype], once the calls of
    a population have resolved, with entities as answers, a field that
    held a sequence of identifiers holds the entities answered for them,
    in the order of the identifiers, those without an answer dropped; a
    field that held one identifier holds the entity answered for it, or
    nothing. *)
Theorem populateModels_replaces_plain_fields d schema :
  NoDup (map fst schema) ->
  (forall f a,
      (f, VStr a) ∈ schema -> idList (docs_items d) f <> [] ->
      exists pd,
        ctx_call ctx a (populate_params (idList (docs_items d) f)) = Ok pd
        /\ map_Forall (fun _ v => is_entity v) pd) ->
  Forall (fun e => plain_name e.1) schema ->
  (forall doc f, doc ∈ docs_items d -> f ∈ map fst schema ->
                 Forall (plain_key L) (references (obj_get doc f))) ->
  exists d',
    (populateModels svc L ctx d (Some schema)).2 = Ok d'
    /\ length (docs_items d') = length (docs_items d)
    /\ forall i doc doc',
        docs_items d !! i = Some doc -> docs_items d' !! i = Some doc' ->
        forall f a pd,
          (f, VStr a) ∈ schema -> idList (docs_items d) f <> [] ->
          ctx_call ctx a (populate_params (idList (docs_items d) f)) = Ok pd ->
          obj_get doc' f
          = match obj_get doc f with
            | VArr ids => VArr (omap (fun id => pd !! to_key L id) ids)
            | id => default VUndef (pd !! to_key L id)
            end.
Proof.
  intros Hnd Hcalls Hnames Hplain. rewrite populateModels_eq. cbn [snd].
  set (items := docs_items d) in *.
  set (jobs := populate_jobs items schema).
  assert (Hjobs : forall j, j ∈ jobs ->
             exists pd, ctx_call ctx (j_action j) (populate_params (j_ids j)) = Ok pd).
  { intros j Hj. apply populate_jobs_elem in Hj as (H1 & H2 & H3).
    rewrite H2 in H3. destruct (Hcalls _ _ H1 H3) as (pd & Hpd & _).
    exists pd. by rewrite H2. }
  destruct (run_jobs_ok jobs items Hjobs) as (items' & Hrun).
  rewrite Hrun.
  assert (Hndj : NoDup (map j_field jobs)).
  { eapply sublist_NoDup; [|apply populate_jobs_fields]. done. }
  destruct (run_jobs_fields jobs items items' Hrun Hndj) as [Hlen Hget].
  exists (with_items d items').
  rewrite (docs_items_with_items d items' Hlen).
  split; [done|]. split; [done|].
  intros i doc doc' H1 H2 f a pd Hin Hne Hcall.
  pose proof (populate_jobs_complete items schema f a Hin Hne) as Hj.
  pose proof (Hget i doc doc' H1 H2 _ pd Hj Hcall) as [_ Hg].
  simpl in Hg. rewrite Hg.
  assert (Hf : plain_name f).
  { rewrite Forall_forall in Hnames. exact (Hnames (f, VStr a) Hin). }
  rewrite replace_field_plain by done.
  destruct (Hcalls f a Hin Hne) as (pd' & Hpd' & Hent).
  assert (pd' = pd) by congruence. subst pd'.
  assert (Hp : Forall (plain_key L) (references (obj_get doc f))).
  { apply Hplain; [by eapply list_elem_of_lookup_2|].
    apply list_elem_of_In, in_map_iff. exists (f, VStr a).
    split; [done | by apply list_elem_of_In]. }
  unfold populated_value.
  destruct (obj_get doc f) eqn:Eg; simpl in Hp;
    try (apply Forall_cons_1 in Hp as [Hp _]; by apply populated_plain).
  by rewrite compact_populated.
Qed.

End Population.



(** C4, the input on which the code departs from the claim: the entity
    [{id: "a", tags: ["t1", "constructor"]}], populated with the schema
    [{tags: "tags.getByIds"}], the call answered with
    [{t1: {...}, t2: {...}}].  The answer holds nothing for the
    identifier [constructor]; it is not dropped: [populatedDocs[_id]]
    finds the member of that name in [Object.prototype], and the field
    ends as the entity [t1] followed by a function.  In the same way the
    scalar field of [{id: "b", tags: "toString"}] ends as a function
    instead of absent. *)
Theorem populateModels_keeps_prototype_member :
  tags_result !! "constructor" = None
  /\ populateModels docs_service L0 tags_ctx (DOne constructor_entity)
       (Some tags_schema)
     = ([EvCall "tags.getByIds"
           {| prm_id := VArr [VStr "t1"; VStr "constructor"];
              prm_code := VUndef; prm_resultAsObject := VBool true;
              prm_populate := VUndef; prm_propFilter := VBool true |}],
        Ok (DOne [("id", VStr "a");
                  ("tags", VArr [VObj tag_t1; VNative "constructor"])]))
  /\ tags_result !! "toString" = None
  /\ (populateModels docs_service L0 tags_ctx (DOne toString_entity)
        (Some tags_schema)).2
     = Ok (DOne [("id", VStr "b"); ("tags", VNative "toString")]).
Proof. repeat split. Qed.

Lemma populateModels_replaces_plain_fields_witness :
  exists doc',
    (populateModels docs_service L0 tags_ctx (DOne scenario_entity)
       (Some tags_schema)).2
    = Ok (DOne doc')
    /\ obj_get doc' "tags" = VArr [VObj tag_t1; VObj tag_t2].
Proof.
  destruct (populateModels_replaces_plain_fields docs_service L0 tags_ctx
              (DOne scenario_entity) tags_schema) as (d' & Hrun & Hlen & Hget).
  - apply NoDup_singleton.
  - intros f a Hin _. apply list_elem_of_singleton in Hin.
    injection Hin as -> ->. exists tags_result. split; [reflexivity|].
    unfold tags_result.
    apply map_Forall_insert_2; [exact I|].
    apply map_Forall_insert_2; [exact I|].
    apply map_Forall_empty.
  - repeat constructor.
  - intros doc f Hdoc Hf. apply list_elem_of_singleton in Hdoc.
    apply list_elem_of_singleton in Hf. subst doc f.
    repeat constructor.
  - destruct d' as [|doc'|es]; simpl in Hlen; try discriminate.
    exists doc'. split; [exact Hrun|].
    rewrite (Hget 0%nat scenario_entity doc' eq_refl eq_refl
               "tags" "tags.getByIds" tags_result).
    + reflexivity.
    + left.
    + discriminate.
    + reflexivity.
Defined.

(* ===================================================================== *)
(** * Publishing: more on the published schema *)
(* ===================================================================== *)

Section PublishedSchema.
Context (C : constants).

Lemma publish_entry_rest_off svc sch k h :
  s_rest (svc_settings svc) = false ->
  rest (publish_entry C svc sch k h).1 = rest sch.
Proof.
  intros Hoff. unfold publish_entry.
  destruct (publish (as_action h)) as [[|]|]; simpl; rewrite ?Hoff;
    try reflexivity; by destruct (s_ws (svc_settings svc)).
Qed.

Lemma publish_entry_ws_off svc sch k h :
  s_ws (svc_settings svc) = false ->
  ws (publish_entry C svc sch k h).1 = ws sch.
Proof.
  intros Hoff. unfold publish_entry.
  destruct (publish (as_action h)) as [[|]|]; simpl; rewrite ?Hoff;
    try reflexivity; by destruct (s_rest (svc_settings svc)).
Qed.

Lemma publish_entries_rest_off svc acts : forall sch,
  s_rest (svc_settings svc) = false ->
  rest (publish_entries C svc sch acts).1 = rest sch.
Proof.
  induction acts as [|[k h] acts IH]; intros sch Hoff; simpl; [done|].
  pose proof (publish_entry_rest_off svc sch k h Hoff) as H1.
  destruct (publish_entry C svc sch k h) as [sch1 h1].
  pose proof (IH sch1 Hoff) as H2.
  destruct (publish_entries C svc sch1 acts) as [sch2 acts2].
  simpl in *. congruence.
Qed.

Lemma publish_entries_ws_off svc acts : forall sch,
  s_ws (svc_settings svc) = false ->
  ws (publish_entries C svc sch acts).1 = ws sch.
Proof.
  induction acts as [|[k h] acts IH]; intros sch Hoff; simpl; [done|].
  pose proof (publish_entry_ws_off svc sch k h Hoff) as H1.
  destruct (publish_entry C svc sch k h) as [sch1 h1].
  pose proof (IH sch1 Hoff) as H2.
  destruct (publish_entries C svc sch1 acts) as [sch2 acts2].
  simpl in *. congruence.
Qed.

Lemma publish_entry_rest_on svc sch k h :
  s_rest (svc_settings svc) = true -> is_Some (rest sch) ->
  is_Some (rest (publish_entry C svc sch k h).1).
Proof.
  intros Hon Hs. unfold publish_entry.
  destruct (publish (as_action h)) as [[|]|]; simpl; rewrite ?Hon;
    try done; by destruct (s_ws (svc_settings svc)).
Qed.

Lemma publish_entry_ws_on svc sch k h :
  s_ws (svc_settings svc) = true -> is_Some (ws sch) ->
  is_Some (ws (publish_entry C svc sch k h).1).
Proof.
  intros Hon Hs. unfold publish_entry.
  destruct (publish (as_action h)) as [[|]|]; simpl; rewrite ?Hon;
    try done; by destruct (s_rest (svc_settings svc)).
Qed.

Lemma publish_entries_rest_on svc acts : forall sch,
  s_rest (svc_settings svc) = true -> is_Some (rest sch) ->
  is_Some (rest (publish_entries C svc sch acts).1).
Proof.
  induction acts as [|[k h] acts IH]; intros sch Hon Hs; simpl; [done|].
  pose proof (publish_entry_rest_on svc sch k h Hon Hs) as H1.
  destruct (publish_entry C svc sch k h) as [sch1 h1].
  pose proof (IH sch1 Hon H1) as H2.
  by destruct (publish_entries C svc sch1 acts) as [sch2 acts2].
Qed.

Lemma publish_entries_ws_on svc acts : forall sch,
  s_ws (svc_settings svc) = true -> is_Some (ws sch) ->
  is_Some (ws (publish_entries C svc sch acts).1).
Proof.
  induction acts as [|[k h] acts IH]; intros sch Hon Hs; simpl; [done|].
  pose proof (publish_entry_ws_on svc sch k h Hon Hs) as H1.
  destruct (publish_entry C svc sch k h) as [sch1 h1].
  pose proof (IH sch1 Hon H1) as H2.
  by destruct (publish_entries C svc sch1 acts) as [sch2 acts2].
Qed.

Lemma publish_entries_graphql svc acts : forall sch,
  graphql (publish_entries C svc sch acts).1 = graphql sch.
Proof.
  induction acts as [|[k h] acts IH]; intros sch; simpl; [done|].
  pose proof (publish_entry_namespace C svc sch k h) as (_ & _ & Hg & _).
  destruct (publish_entry C svc sch k h) as [sch1 h1].
  specialize (IH sch1).
  destruct (publish_entries C svc sch1 acts) as [sch2 l2]. simpl in *.
  congruence.
Qed.

Lemma published_descriptors_length svc acts :
  length (published_descriptors C svc acts)
  = length (filter (fun e => publish (as_action e.2) <> Some false) acts).
Proof.
  unfold published_descriptors, published_descriptor, omap.
  induction acts as [|[k h] acts IH]; simpl; [done|].
  rewrite filter_cons. simpl.
  destruct (decide (publish (as_action h) <> Some false)) as [Hd|Hd];
    destruct (publish (as_action h)) as [[|]|]; simpl;
    try (by rewrite IH); try done.
  all: exfalso; apply Hd; done.
Qed.

(** X1: with the channel transport on, the channel routes are one per
    published action, in the order of the actions, each at
    [/{namespace}/{name}] under the qualified name of the action; their
    number is the number of entries whose [publish] is not [false]. *)
Theorem channel_route_per_published_action svc acts :
  s_ws (svc_settings svc) = true ->
  svc_actions svc = Some acts ->
  published_ws (publishActions C svc)
  = map (fun a =>
           {| w_path := "/" ++ namespace (initial_schema svc) ++ "/"
                          ++ str_of (name a);
              w_action := svc_name svc ++ "." ++ str_of (name a);
              w_permission := permission a;
              w_role := role a |})
      (published_descriptors C svc acts)
  /\ length (published_ws (publishActions C svc))
     = length (filter (fun e => publish (as_action e.2) <> Some false) acts).
Proof.
  intros Hws Ha.
  assert (H : published_ws (publishActions C svc)
              = map (fun a => ws_route_of (namespace (initial_schema svc))
                                (svc_name svc ++ "." ++ str_of (name a)) a)
                  (published_descriptors C svc acts)).
  { rewrite (published_ws_eq C svc acts Ha).
    rewrite (publish_entries_ws C svc acts _ Hws).
    by rewrite initial_ws_empty. }
  split; [exact H|].
  by rewrite H, length_map, published_descriptors_length.
Qed.

(** X2: with the request/response transport on, the number of routes is
    four for each published action and one more for each of them that
    has a truthy [defaultMethod]. *)
Theorem rest_route_count svc acts :
  s_rest (svc_settings svc) = true ->
  svc_actions svc = Some acts ->
  length (published_rest (publishActions C svc))
  = 4 * length (published_descriptors C svc acts)
    + length (filter (fun a => truthy_str (defaultMethod a) = true)
                (published_descriptors C svc acts)).
Proof.
  intros Hrest Ha.
  rewrite (published_rest_eq C svc acts Ha).
  rewrite (publish_entries_rest C svc acts _ Hrest).
  rewrite initial_rest_empty. simpl. rewrite length_app.
  set (ns := if truthy_str _ then _ else _).
  set (idp := if s_hashedIdentity _ then _ else _).
  f_equal.
  - rewrite <- (length_rev (published_descriptors C svc acts)).
    induction (rev _) as [|a l IH]; simpl; [done|]. rewrite IH. lia.
  - induction (published_descriptors C svc acts) as [|a l IH]; simpl; [done|].
    rewrite length_app, IH, filter_cons. unfold shortcut_routes.
    destruct (decide (truthy_str (defaultMethod a) = true)) as [Hd|Hd].
    + by rewrite Hd.
    + apply not_true_is_false in Hd. by rewrite Hd.
Qed.

(** X3: the switches of the three transports are independent: the
    published schema has request/response routes exactly when [rest] is
    on, channel routes exactly when [ws] is on, and the query-protocol
    schema only when [graphql] is on, whatever the actions are. *)
Theorem transports_follow_settings svc acts sch :
  svc_actions svc = Some acts ->
  p_returned (publishActions C svc) = Some sch ->
  (is_Some (rest sch) <-> s_rest (svc_settings svc) = true)
  /\ (is_Some (ws sch) <-> s_ws (svc_settings svc) = true)
  /\ graphql sch
     = (if s_graphql (svc_settings svc) then svc_graphql svc else None).
Proof.
  intros Ha Hret. rewrite (returned_actions C svc acts Ha) in Hret.
  injection Hret as <-.
  pose proof (publish_entries_graphql svc acts (initial_schema svc)) as Hg.
  set (sch0 := (publish_entries C svc (initial_schema svc) acts).1) in *.
  assert (Hr : is_Some (rest sch0) <-> s_rest (svc_settings svc) = true).
  { destruct (s_rest (svc_settings svc)) eqn:E.
    - split; [done|]. intros _. apply publish_entries_rest_on; [done|].
      unfold initial_schema. simpl. by rewrite E.
    - unfold sch0. rewrite publish_entries_rest_off by done.
      unfold initial_schema. simpl. rewrite E. split; [|done].
      by intros [? ?]. }
  assert (Hw : is_Some (ws sch0) <-> s_ws (svc_settings svc) = true).
  { destruct (s_ws (svc_settings svc)) eqn:E.
    - split; [done|]. intros _. apply publish_entries_ws_on; [done|].
      unfold initial_schema. simpl. by rewrite E.
    - unfold sch0. rewrite publish_entries_ws_off by done.
      unfold initial_schema. simpl. rewrite E. split; [|done].
      by intros [? ?]. }
  destruct (s_graphql (svc_settings svc)); simpl; done.
Qed.

Lemma published_descriptors_elem svc acts a :
  a ∈ published_descriptors C svc acts ->
  exists k h, (k, h) ∈ acts /\ publish (as_action h) <> Some false
              /\ a = set_defaults C (svc_settings svc) k (as_action h).
Proof.
  unfold published_descriptors. intros ((k & h) & Hin & Hp)%list_elem_of_omap.
  exists k, h. split; [done|]. unfold published_descriptor in Hp. simpl in Hp.
  destruct (publish (as_action h)) as [[|]|]; try done;
    injection Hp as <-; split; done.
Qed.

Lemma published_rest_off svc :
  s_rest (svc_settings svc) = false ->
  published_rest (publishActions C svc) = [].
Proof.
  intros Hoff. destruct (svc_actions svc) as [acts|] eqn:Ha.
  - rewrite (published_rest_eq C svc acts Ha).
    rewrite publish_entries_rest_off by done.
    apply initial_rest_empty.
  - unfold published_rest, publishActions. by rewrite Ha.
Qed.

Lemma published_ws_off svc :
  s_ws (svc_settings svc) = false ->
  published_ws (publishActions C svc) = [].
Proof.
  intros Hoff. destruct (svc_actions svc) as [acts|] eqn:Ha.
  - rewrite (published_ws_eq C svc acts Ha).
    rewrite publish_entries_ws_off by done.
    apply initial_ws_empty.
  - unfold published_ws, publishActions. by rewrite Ha.
Qed.

Lemma prefix_app s t : String.prefix s (s ++ t) = true.
Proof.
  induction s as [|c s IH]; simpl; [by destruct t|].
  by destruct (Ascii.ascii_dec c c).
Qed.

Lemma prefix_refl s : String.prefix s s = true.
Proof.
  induction s as [|c s IH]; simpl; [done|].
  by destruct (Ascii.ascii_dec c c).
Qed.

(** Every request/response route is one of the routes of a published
    descriptor. *)
Lemma published_rest_elem svc acts r :
  svc_actions svc = Some acts ->
  r ∈ published_rest (publishActions C svc) ->
  exists a, a ∈ published_descriptors C svc acts
            /\ exists method path, r = route_of svc a method path
                 /\ String.prefix ("/" ++ namespace (initial_schema svc)) path = true.
Proof.
  intros Ha Hr.
  destruct (s_rest (svc_settings svc)) eqn:Hrest;
    [|rewrite published_rest_off in Hr by done; by apply elem_of_nil in Hr].
  rewrite (published_rest_eq C svc acts Ha) in Hr.
  rewrite (publish_entries_rest C svc acts _ Hrest) in Hr.
  rewrite initial_rest_empty in Hr. cbn [app] in Hr.
  set (ns := namespace (initial_schema svc)) in *.
  assert (Hpre : forall t, String.prefix ("/" ++ ns) ("/" ++ ns ++ t) = true).
  { intros t. apply (prefix_app ("/" ++ ns) t). }
  assert (Hpre0 : String.prefix ("/" ++ ns) ("/" ++ ns) = true)
    by apply prefix_refl.
  apply elem_of_app in Hr as [Hr|Hr].
  - apply list_elem_of_In, in_flat_map in Hr as (a & Hin & Hr).
    exists a. split.
    { apply list_elem_of_In. by apply in_rev. }
    unfold generic_routes in Hr. simpl in Hr.
    destruct Hr as [<-|[<-|[<-|[<-|[]]]]]; eexists _, _; split;
      try reflexivity; apply Hpre.
  - apply list_elem_of_In, in_flat_map in Hr as (a & Hin & Hr).
    exists a. split; [by apply list_elem_of_In|].
    unfold shortcut_routes in Hr.
    destruct (truthy_str (defaultMethod a)); [|done].
    destruct Hr as [<-|[]]. eexists _, _. split; [reflexivity|].
    destruct (needModel a); [apply Hpre | apply Hpre0].
Qed.

(** X4: every request/response route and every channel route is derived
    from an entry whose [publish] is not [false], and carries its
    qualified name (the name of the descriptor, or the key when it has
    none), its permission or that of the service, and its role or that
    of the service or the user role: a route is never without a role. *)
Theorem routes_carry_action_defaults svc acts :
  svc_actions svc = Some acts ->
  (forall r, r ∈ published_rest (publishActions C svc) ->
     is_Some (r_role r)
     /\ exists k h, (k, h) ∈ acts
          /\ derived_from C svc k h (r_action r) (r_permission r) (r_role r))
  /\ (forall w, w ∈ published_ws (publishActions C svc) ->
        is_Some (w_role w)
        /\ exists k h, (k, h) ∈ acts
             /\ derived_from C svc k h (w_action w) (w_permission w) (w_role w)).
Proof.
  intros Ha.
  assert (Hrole : forall x, is_Some (or_str x (Some (ROLE_USER C)))).
  { intros x. unfold or_str. destruct x as [s|]; simpl; [|done].
    by destruct (negb _). }
  split.
  - intros r Hr.
    destruct (published_rest_elem svc acts r Ha Hr)
      as (a & Hin & method & path & -> & _).
    apply published_descriptors_elem in Hin as (k & h & Hin & Hp & ->).
    simpl. split; [apply Hrole|]. exists k, h. split; [done|].
    unfold derived_from. simpl. done.
  - intros w Hw.
    destruct (s_ws (svc_settings svc)) eqn:Hws;
      [|rewrite published_ws_off in Hw by done; by apply elem_of_nil in Hw].
    rewrite (published_ws_eq C svc acts Ha) in Hw.
    rewrite (publish_entries_ws C svc acts _ Hws) in Hw.
    rewrite initial_ws_empty in Hw. simpl in Hw.
    apply list_elem_of_In, in_map_iff in Hw as (a & <- & Hin).
    apply list_elem_of_In, published_descriptors_elem in Hin
      as (k & h & Hin & Hp & ->).
    simpl. split; [apply Hrole|]. exists k, h. split; [done|].
    unfold derived_from. simpl. done.
Qed.

(** X5: the path of every request/response route starts with the
    namespace of the service: the [namespace] setting when it is truthy,
    the name of the service otherwise. *)
Theorem rest_paths_under_namespace svc acts r :
  svc_actions svc = Some acts ->
  r ∈ published_rest (publishActions C svc) ->
  String.prefix
    ("/" ++ (if truthy_str (s_namespace (svc_settings svc))
             then str_of (s_namespace (svc_settings svc))
             else svc_name svc))
    (r_path r) = true.
Proof.
  intros Ha Hr.
  destruct (published_rest_elem svc acts r Ha Hr)
    as (a & _ & method & path & -> & Hpre).
  exact Hpre.
Qed.

End PublishedSchema.

Lemma channel_route_per_published_action_witness :
  length (published_ws (publishActions C0 session_service)) = 1%nat.
Proof.
  exact (proj2 (channel_route_per_published_action C0 session_service
                  [("me", Full me_action); ("onlineUsers", Inline 3)]
                  eq_refl eq_refl)).
Defined.

Lemma rest_route_count_witness :
  length (published_rest (publishActions C0 docs_service)) = 5%nat.
Proof.
  exact (rest_route_count C0 docs_service
           [("rename", Full rename_action)] eq_refl eq_refl).
Defined.

Lemma transports_follow_settings_witness :
  exists sch,
    p_returned (publishActions C0 session_service) = Some sch
    /\ is_Some (rest sch) /\ is_Some (ws sch)
    /\ graphql sch = Some session_graphql.
Proof.
  eexists. split; [reflexivity|].
  destruct (transports_follow_settings C0 session_service
              [("me", Full me_action); ("onlineUsers", Inline 3)] _
              eq_refl eq_refl) as (Hr & Hw & Hg).
  split; [by apply Hr|]. split; [by apply Hw|]. exact Hg.
Defined.

Lemma routes_carry_action_defaults_witness :
  r_role rename_shortcut = Some "user"
  /\ r_permission rename_shortcut = Some "loggedIn".
Proof.
  destruct (proj1 (routes_carry_action_defaults C0 docs_service
                     [("rename", Full rename_action)] eq_refl)
              rename_shortcut)
    as (_ & k & h & Hin & _ & _ & Hp & Hrl).
  - rewrite rename_routes. apply elem_of_app. right. left.
  - apply list_elem_of_singleton in Hin. injection Hin as -> ->.
    split; [exact Hrl | exact Hp].
Defined.

Lemma rest_paths_under_namespace_witness :
  String.prefix "/docs" (r_path rename_shortcut) = true.
Proof.
  apply (rest_paths_under_namespace C0 docs_service
           [("rename", Full rename_action)] rename_shortcut eq_refl).
  rewrite rename_routes. apply elem_of_app. right. left.
Defined.

(* ===================================================================== *)
(** * The ownership check on absent values *)
(* ===================================================================== *)

(** X7: the comparison of [checkModelOwner] is [==], so an owner field
    that is absent or [null] matches a caller whose identifier is absent
    or [null]: the check passes without the administrator role.  When
    only one of the two is absent or [null], nothing but the
    administrator role passes. *)
Theorem checkModelOwner_absent_values (C : constants) (L : library)
    (model : entity) (fieldName : string) (user : User) :
  (is_nullish (obj_get model fieldName) = true ->
   is_nullish (u_id user) = true ->
   checkModelOwner C L model fieldName user None = Ok model)
  /\ (is_nullish (obj_get model fieldName) <> is_nullish (u_id user) ->
      (checkModelOwner C L model fieldName user None = Ok model
       <-> ROLE_ADMIN C ∈ u_roles user)).
Proof.
  unfold checkModelOwner. split.
  - intros H1 H2.
    destruct (obj_get model fieldName), (u_id user); done.
  - intros Hne.
    assert (Hl : loose_eq L (obj_get model fieldName) (u_id user) = false).
    { destruct (obj_get model fieldName), (u_id user); simpl in *; done. }
    rewrite Hl. simpl. rewrite <- has_role_elem.
    destruct (has_role (u_roles user) (ROLE_ADMIN C)); split; done.
Qed.

Lemma checkModelOwner_absent_values_witness :
  checkModelOwner C0 L0 orphan_entity "owner" anonymous None = Ok orphan_entity
  /\ checkModelOwner C0 L0 scenario_entity "owner" anonymous None
     <> Ok scenario_entity.
Proof.
  split.
  - apply (proj1 (checkModelOwner_absent_values C0 L0 orphan_entity "owner"
                    anonymous)); reflexivity.
  - intros H.
    apply (proj2 (checkModelOwner_absent_values C0 L0 scenario_entity "owner"
                    anonymous)) in H.
    + simpl in H. by apply elem_of_nil in H.
    + simpl. discriminate.
Defined.

(* ===================================================================== *)
(** * The property filter *)
(* ===================================================================== *)

Lemma append_cons c s t : String c s ++ t = String c (s ++ t).
Proof. reflexivity. Qed.

Lemma append_nil_r s : s ++ "" = s.
Proof.
  induction s as [|c s IH]; [done|]. by rewrite append_cons, IH.
Qed.

Lemma append_assoc s t u : (s ++ t) ++ u = s ++ (t ++ u).
Proof.
  induction s as [|c s IH]; [done|]. by rewrite !append_cons, IH.
Qed.

Lemma has_space_app s t : has_space (s ++ t) = has_space s || has_space t.
Proof.
  induction s as [|c s IH]; [done|].
  rewrite append_cons. simpl. rewrite IH.
  by destruct (Ascii.eqb c _).
Qed.

Lemma split_space_aux_cons cur s :
  exists w ws, split_space_aux cur s = w :: ws.
Proof.
  revert cur. induction s as [|c s IH]; intros cur; simpl; [eauto|].
  destruct (Ascii.eqb c _); eauto.
Qed.

Lemma join_space_cons w ws :
  ws <> [] -> join_space (w :: ws) = w ++ " " ++ join_space ws.
Proof. by destruct ws. Qed.

Lemma split_space_aux_spec s : forall cur,
  has_space cur = false ->
  join_space (split_space_aux cur s) = cur ++ s
  /\ Forall (fun w => has_space w = false) (split_space_aux cur s).
Proof.
  induction s as [|c s IH]; intros cur Hcur; simpl.
  - rewrite append_nil_r. split; [done|]. by constructor.
  - destruct (Ascii.eqb c (Ascii.ascii_of_nat 32)) eqn:E.
    + apply Ascii.eqb_eq in E. subst c.
      destruct (IH "" eq_refl) as [Hj Hf].
      destruct (split_space_aux_cons "" s) as (w & ws & Hw).
      split; [|by constructor].
      rewrite join_space_cons by (rewrite Hw; done).
      by rewrite Hj.
    + assert (Hc : has_space (cur ++ String c "") = false).
      { rewrite has_space_app, Hcur. simpl. by rewrite E. }
      destruct (IH _ Hc) as [Hj Hf].
      split; [|done]. rewrite Hj. by rewrite append_assoc.
Qed.

Section PropertyFilter.
Context (svc : Service) (L : library).

(** X8: a filter given as a string reaches [_.pick] as the sequence of
    its words: each document is answered with what [_.pick] selects of
    it by a sequence of strings, none of which holds a space, and which
    joined by spaces give the filter back. *)
Theorem toJSON_string_filter_words (s : string) :
  exists words,
    words <> []
    /\ join_space words = s
    /\ Forall (fun w => has_space w = false) words
    /\ (forall e, toJSON svc L (DOne e) (VStr s)
                  = DOne (pick L e (VArr (map VStr words))))
    /\ (forall es, toJSON svc L (DMany es) (VStr s)
                   = DMany (map (fun e => pick L e (VArr (map VStr words)))
                              es)).
Proof.
  destruct (split_space_aux_spec s "" eq_refl) as [Hj Hf].
  destruct (split_space_aux_cons "" s) as (w & ws & Hw).
  exists (split_space s).
  split; [unfold split_space; by rewrite Hw|].
  repeat split; done.
Qed.

(** X9: [toJSON] keeps the shape of what it is given: nothing stays
    nothing, one entity stays one, a sequence keeps its length; and when
    neither a filter is given nor the service sets [modelPropFilter], it
    is returned as it is. *)
Theorem toJSON_keeps_shape (d : docs) (propFilter : value) :
  length (docs_items (toJSON svc L d propFilter)) = length (docs_items d)
  /\ (toJSON svc L d propFilter = DUndef <-> d = DUndef)
  /\ ((exists e, toJSON svc L d propFilter = DOne e) <-> exists e, d = DOne e)
  /\ (is_nullish propFilter = true ->
      is_nullish (s_modelPropFilter (svc_settings svc)) = true ->
      toJSON svc L d propFilter = d).
Proof.
  unfold toJSON. split; [|split; [|split]].
  - destruct d; simpl; try done. by rewrite length_map.
  - destruct d; split; done.
  - destruct d; split; intros [e' H]; try done; eauto.
  - intros H1 H2. unfold effective_filter. rewrite H1.
    assert (Hf : forall doc,
               toJSON_func L
                 match s_modelPropFilter (svc_settings svc) with
                 | VStr s => VArr (map VStr (split_space s))
                 | _ => s_modelPropFilter (svc_settings svc)
                 end doc = doc).
    { intros doc. unfold toJSON_func.
      by destruct (s_modelPropFilter (svc_settings svc)). }
    destruct d as [|e|es]; simpl; [done | by rewrite Hf |].
    f_equal. induction es as [|e es IH]; simpl; [done|].
    by rewrite Hf, IH.
Qed.

End PropertyFilter.

Lemma toJSON_keeps_shape_witness :
  toJSON docs_service L0 (DMany [post_1; post_2]) VUndef
  = DMany [post_1; post_2].
Proof.
  apply (proj2 (proj2 (proj2 (toJSON_keeps_shape docs_service L0
                                (DMany [post_1; post_2]) VUndef))));
    reflexivity.
Defined.

(* ===================================================================== *)
(** * Query filters *)
(* ===================================================================== *)

Lemma replace_comma_first a b :
  has_comma a = false ->
  replace_comma (a ++ "," ++ b) = a ++ " " ++ b.
Proof.
  induction a as [|c a IH]; [done|].
  rewrite !append_cons. simpl.
  destruct (Ascii.eqb c (Ascii.ascii_of_nat 44)) eqn:E; simpl; [done|].
  intros H. f_equal. by apply IH.
Qed.

Lemma replace_comma_none s :
  has_comma s = false -> replace_comma s = s.
Proof.
  induction s as [|c s IH]; simpl; [done|].
  destruct (Ascii.eqb c (Ascii.ascii_of_nat 44)) eqn:E; simpl; [done|].
  intros H. by rewrite IH.
Qed.

(** X10: [applyFilters] turns only the first comma of [sort] into a
    space: what follows it reaches the query as it is, further commas
    included; a [sort] without a comma is passed on unchanged. *)
Theorem applyFilters_sort_first_comma (query : list query_op)
    (limit offset : value) (a b : string) :
  has_comma a = false ->
  (exists q,
      applyFilters query
        (Some {| prm_limit := limit; prm_offset := offset;
                 prm_sort := VStr (a ++ "," ++ b) |})
      = Ok (q ++ [QSort (a ++ " " ++ b)])%list)
  /\ (a <> "" ->
      exists q,
        applyFilters query
          (Some {| prm_limit := limit; prm_offset := offset;
                   prm_sort := VStr a |})
        = Ok (q ++ [QSort a])%list).
Proof.
  intros Ha. unfold applyFilters.
  cbn [prm_sort prm_limit prm_offset truthy]. split.
  - assert (Ht : negb (String.eqb (a ++ "," ++ b) "") = true)
      by (by destruct a).
    rewrite Ht. rewrite replace_comma_first by done. eauto.
  - intros Hne.
    assert (Ht : negb (String.eqb a "") = true) by (by destruct a).
    rewrite Ht. rewrite replace_comma_none by done. eauto.
Qed.

Lemma applyFilters_sort_first_comma_witness :
  exists q,
    applyFilters [] (Some params_page)
    = Ok (q ++ [QSort "-votes createdAt,title"])%list.
Proof.
  exact (proj1 (applyFilters_sort_first_comma [] (VNum 10) (VNum 0)
                  "-votes" "createdAt,title" eq_refl)).
Defined.

(** X11: [applyFilters] only adds to the query: the calls already made
    stay first, at most three are added (limit, skip, sort, in this
    order), and none at all when [ctx.params] is absent or holds no
    truthy [limit], [offset] or [sort] (a limit or an offset of 0 is not
    applied).  It fails only on a truthy [sort] that is not a string. *)
Theorem applyFilters_only_appends (query : list query_op)
    (params : option FilterParams) :
  (forall q', applyFilters query params = Ok q' ->
     exists added,
       q' = (query ++ added)%list /\ (length added <= 3)%nat
       /\ (added = [] <->
           match params with
           | None => True
           | Some p => truthy (prm_limit p) = false
                       /\ truthy (prm_offset p) = false
                       /\ truthy (prm_sort p) = false
           end))
  /\ (forall e, applyFilters query params = Err e ->
        exists p, params = Some p /\ truthy (prm_sort p) = true
                  /\ isString (prm_sort p) = false).
Proof.
  unfold applyFilters. destruct params as [p|].
  2:{ split; [|done]. intros q' [= <-]. exists []. rewrite app_nil_r.
      split; [done|]. split; [simpl; lia | done]. }
  split.
  - intros q'.
    destruct (truthy (prm_limit p)), (truthy (prm_offset p)),
      (truthy (prm_sort p)) eqn:Es;
      try (destruct (prm_sort p) eqn:Ep; try done);
      intros [= <-]; rewrite <- ?app_assoc; simpl;
      first [ eexists; split; [reflexivity|]; split; [simpl; lia|];
              split; [done | by intros (? & ? & ?)]
            | exists []; rewrite app_nil_r; split; [done|];
              split; [simpl; lia | done] ].
  - intros e He. exists p. split; [done|].
    destruct (truthy (prm_sort p)) eqn:Es; [|done].
    split; [done|]. by destruct (prm_sort p).
Qed.

Lemma applyFilters_only_appends_witness :
  exists added,
    [QLimit (VNum 10); QSort "-votes createdAt,title"]
    = ([] ++ added)%list /\ (length added <= 3)%nat.
Proof.
  destruct (proj1 (applyFilters_only_appends [] (Some params_page))
              [QLimit (VNum 10); QSort "-votes createdAt,title"] eq_refl)
    as (added & H1 & H2 & _).
  exists added. split; [exact H1 | exact H2].
Defined.

(* ===================================================================== *)
(** * Population: what it leaves alone, how it fails *)
(* ===================================================================== *)

Section PopulationMore.
Context (svc : Service) (L : library) (ctx : Context).

Lemma populate_jobs_unreferenced items schema :
  (forall f t, (f, t) ∈ schema -> ~ referenced items f) ->
  populate_jobs items schema = [].
Proof.
  induction schema as [|[f t] schema IH]; intros H; simpl; [done|].
  assert (Hrest : populate_jobs items schema = []).
  { apply IH. intros f' t' Hin. apply (H f' t'). by right. }
  destruct t; try done.
  assert (He : idList items f = []).
  { destruct (idList items f) as [|x l] eqn:E; [done|]. exfalso.
    apply (H f (VStr s)); [left|]. apply idList_nonempty. by rewrite E. }
  by rewrite He.
Qed.

(** X12: [populateModels] calls nothing and hands the documents back as
    they are when there are no documents, when no schema is given and
    the service sets none, and when no entity holds a reference in any
    field of the schema. *)
Theorem populateModels_nothing_to_do (d : docs)
    (schema : list (string * value)) :
  (forall sch, populateModels svc L ctx DUndef sch = ([], Ok DUndef))
  /\ (s_modelPopulates (svc_settings svc) = None ->
      populateModels svc L ctx d None = ([], Ok d))
  /\ ((forall f t, (f, t) ∈ schema -> ~ referenced (docs_items d) f) ->
      populateModels svc L ctx d (Some schema) = ([], Ok d)).
Proof.
  split; [|split].
  - intros sch. unfold populateModels. by destruct sch.
  - intros H. unfold populateModels. rewrite H. by destruct d.
  - intros H. unfold populateModels.
    rewrite (populate_jobs_unreferenced _ _ H). by destruct d.
Qed.

(** X13: a population that succeeds keeps the number of the documents
    and their order, and changes no field but those named in the
    schema. *)
Theorem populateModels_leaves_other_fields (d d' : docs)
    (schema : list (string * value)) :
  (populateModels svc L ctx d (Some schema)).2 = Ok d' ->
  length (docs_items d') = length (docs_items d)
  /\ forall i doc doc' f,
      docs_items d !! i = Some doc -> docs_items d' !! i = Some doc' ->
      f ∉ map fst schema -> obj_get doc' f = obj_get doc f.
Proof.
  rewrite populateModels_eq. cbn [snd].
  destruct (run_jobs L ctx _ _) as [items'|e] eqn:Hrun; [|done].
  intros [= <-].
  destruct (run_jobs_other _ _ _ _ _ Hrun) as [Hlen Hget].
  rewrite (docs_items_with_items d items' Hlen).
  split; [done|].
  intros i doc doc' f H1 H2 Hf. apply (Hget i doc doc' f H1 H2).
  intros Hin. apply Hf.
  eapply elem_of_sublist; [exact Hin | apply populate_jobs_fields].
Qed.

Lemma run_jobs_fails jobs : forall items j e,
  j ∈ jobs ->
  ctx_call ctx (j_action j) (populate_params (j_ids j)) = Err e ->
  exists j' e',
    j' ∈ jobs
    /\ ctx_call ctx (j_action j') (populate_params (j_ids j')) = Err e'
    /\ run_jobs L ctx jobs items = Err e'.
Proof.
  induction jobs as [|j0 jobs IH]; intros items j e Hin Hcall; simpl.
  - by apply elem_of_nil in Hin.
  - destruct (ctx_call ctx (j_action j0) (populate_params (j_ids j0)))
      as [pd|e0] eqn:E0.
    + apply elem_of_cons in Hin as [->|Hin]; [congruence|].
      destruct (IH (map (replace_field L (j_field j0) pd) items) j e Hin Hcall)
        as (j' & e' & Hj' & Hc' & Hr).
      exists j', e'. split; [by right | done].
    + exists j0, e0. split; [left | done].
Qed.

(** X14: when one of the calls of a population is rejected, the
    population is rejected, with the error of a rejected call; nothing
    is returned of the documents, and every call of the schema has been
    issued all the same: the calls made are, in the order of the schema,
    one for each field with an action name and a non-empty identifier
    list, whether rejected or not. *)
Theorem populateModels_fails_with_a_call (d : docs)
    (schema : list (string * value)) (f a : string) (e : error) :
  (f, VStr a) ∈ schema ->
  idList (docs_items d) f <> [] ->
  ctx_call ctx a (populate_params (idList (docs_items d) f)) = Err e ->
  (exists e' a' ids',
    (populateModels svc L ctx d (Some schema)).2 = Err e'
    /\ ctx_call ctx a' (populate_params ids') = Err e'
    /\ EvCall a' (populate_params ids') ∈ (populateModels svc L ctx d (Some schema)).1
    /\ EvCall a (populate_params (idList (docs_items d) f))
         ∈ (populateModels svc L ctx d (Some schema)).1)
  /\ (populateModels svc L ctx d (Some schema)).1
     = omap (fun entry =>
               match entry.2 with
               | VStr a' =>
                   if decide (idList (docs_items d) entry.1 = []) then None
                   else Some (EvCall a'
                                {| prm_id := VArr (idList (docs_items d) entry.1);
                                   prm_code := VUndef;
                                   prm_resultAsObject := VBool true;
                                   prm_populate := VUndef;
                                   prm_propFilter := VBool true |})
               | _ => None
               end) schema
  /\ (forall f' a',
        (f', VStr a') ∈ schema -> idList (docs_items d) f' <> [] ->
        EvCall a'
          {| prm_id := VArr (idList (docs_items d) f'); prm_code := VUndef;
             prm_resultAsObject := VBool true; prm_populate := VUndef;
             prm_propFilter := VBool true |}
          ∈ (populateModels svc L ctx d (Some schema)).1).
Proof.
  intros Hin Hne Hcall. rewrite populateModels_eq. cbn [fst snd].
  split; [|split].
  - pose proof (populate_jobs_complete (docs_items d) schema f a Hin Hne) as Hj.
    destruct (run_jobs_fails _ (docs_items d) _ e Hj Hcall)
      as (j' & e' & Hj' & Hc' & Hr).
    exists e', (j_action j'), (j_ids j'). rewrite Hr.
    split; [done|]. split; [done|].
    split; apply list_elem_of_In, in_map_iff.
    + exists j'. split; [done | by apply list_elem_of_In].
    + eexists. split; [|apply list_elem_of_In, Hj]. done.
  - apply populate_jobs_events.
  - intros f' a' Hin' Hne'.
    pose proof (populate_jobs_complete (docs_items d) schema f' a' Hin' Hne')
      as Hj.
    apply list_elem_of_In, in_map_iff.
    eexists. split; [|apply list_elem_of_In, Hj]. done.
Qed.

End PopulationMore.

(* The identifier list. *)

(** X15: the identifier list of line 240 holds no sequence (nested
    sequences are flattened), holds exactly the values found in the
    truthy fields of the entities, and holds each of them once when they
    are numbers or strings. *)
Theorem idList_flat_and_unique (items : list entity) (field : string) :
  Forall (fun v => isArray v = false) (idList items field)
  /\ (forall v, v ∈ idList items field
                <-> exists doc, doc ∈ items
                                /\ truthy (get_field doc field) = true
                                /\ v ∈ flatten_value (get_field doc field))
  /\ (Forall (fun v => is_primitive v = true) (idList items field) ->
      NoDup (idList items field)).
Proof.
  split; [|split].
  - apply Forall_forall. intros v Hv.
    apply elem_of_idList in Hv as (doc & _ & _ & Hv).
    pose proof (flatten_value_flat (get_field doc field)) as Hf.
    rewrite Forall_forall in Hf. by apply Hf.
  - intros v. apply elem_of_idList.
  - intros Hp. unfold idList, uniq. apply baseUniq_NoDup; [constructor|].
    apply Forall_forall. intros v Hv.
    rewrite Forall_forall in Hp. apply Hp.
    by apply elem_of_uniq.
Qed.

Lemma run_jobs_calls_ok L ctx jobs items r :
  run_jobs L ctx jobs items = Ok r ->
  forall j, j ∈ jobs ->
    exists pd, ctx_call ctx (j_action j) (populate_params (j_ids j)) = Ok pd.
Proof.
  intros Hrun j Hj.
  destruct (ctx_call ctx (j_action j) (populate_params (j_ids j)))
    as [pd|e] eqn:E; [eauto|].
  destruct (run_jobs_fails L ctx jobs items j e Hj E) as (j' & e' & _ & _ & Hr).
  congruence.
Qed.

(** X16: the callbacks of a population write to different fields, so the
    order in which the calls complete does not matter: run in any other
    order, the callbacks succeed as well and leave every field of every
    document with the same value. *)
Theorem population_callbacks_commute (L : library) (ctx : Context)
    (jobs jobs' : list job)
    (items r : list entity) :
  jobs ≡ₚ jobs' ->
  NoDup (map j_field jobs) ->
  run_jobs L ctx jobs items = Ok r ->
  exists r',
    run_jobs L ctx jobs' items = Ok r'
    /\ length r' = length r
    /\ forall i d d' f,
        r !! i = Some d -> r' !! i = Some d' -> obj_get d f = obj_get d' f.
Proof.
  intros Hperm Hnd Hrun.
  pose proof (run_jobs_calls_ok L ctx jobs items r Hrun) as Hok.
  assert (Hok' : forall j, j ∈ jobs' ->
             exists pd, ctx_call ctx (j_action j) (populate_params (j_ids j)) = Ok pd).
  { intros j Hj. apply Hok. by rewrite Hperm. }
  destruct (run_jobs_ok L ctx jobs' items Hok') as (r' & Hrun').
  assert (Hnd' : NoDup (map j_field jobs')).
  { change (map j_field jobs') with (j_field <$> jobs').
    rewrite <- Hperm. exact Hnd. }
  destruct (run_jobs_fields L ctx jobs items r Hrun Hnd) as [Hlen Hget].
  destruct (run_jobs_fields L ctx jobs' items r' Hrun' Hnd') as [Hlen' Hget'].
  destruct (run_jobs_other L ctx jobs items r Hrun) as [_ Hoth].
  destruct (run_jobs_other L ctx jobs' items r' Hrun') as [_ Hoth'].
  exists r'. split; [done|]. split; [congruence|].
  intros i d d' f Hd Hd'.
  assert (Hi : (i < length items)%nat).
  { rewrite <- Hlen. by eapply lookup_lt_Some. }
  apply lookup_lt_is_Some in Hi as [doc Hdoc].
  destruct (decide (f ∈ map j_field jobs)) as [Hf|Hf].
  - apply list_elem_of_In, in_map_iff in Hf as (j & <- & Hj).
    apply list_elem_of_In in Hj.
    destruct (Hok j Hj) as (pd & Hpd).
    rewrite (proj2 (Hget i doc d Hdoc Hd j pd Hj Hpd)).
    assert (Hj' : j ∈ jobs') by (by rewrite <- Hperm).
    by rewrite (proj2 (Hget' i doc d' Hdoc Hd' j pd Hj' Hpd)).
  - rewrite (proj2 (Hoth i doc d f Hdoc Hd Hf)).
    symmetry. apply (Hoth' i doc d' f Hdoc Hd').
    intros Hin. apply Hf.
    change (map j_field jobs) with (j_field <$> jobs).
    rewrite Hperm. exact Hin.
Qed.

Lemma populateModels_nothing_to_do_witness :
  populateModels docs_service L0 tags_ctx (DOne orphan_entity) (Some tags_schema)
  = ([], Ok (DOne orphan_entity))
  /\ populateModels docs_service L0 tags_ctx (DOne scenario_entity) None
     = ([], Ok (DOne scenario_entity)).
Proof.
  destruct (populateModels_nothing_to_do docs_service L0 tags_ctx
              (DOne orphan_entity) tags_schema) as (_ & _ & H3).
  destruct (populateModels_nothing_to_do docs_service L0 tags_ctx
              (DOne scenario_entity) tags_schema) as (_ & H2 & _).
  split.
  - apply H3. intros f t Hin (doc & Hdoc & Ht & _).
    apply list_elem_of_singleton in Hin. injection Hin as -> ->.
    apply list_elem_of_singleton in Hdoc. subst doc. discriminate.
  - apply H2. reflexivity.
Defined.

Lemma populateModels_leaves_other_fields_witness :
  obj_get (replace_field L0 "tags" tags_result scenario_entity) "owner"
  = VStr "u1".
Proof.
  apply (proj2 (populateModels_leaves_other_fields docs_service L0 tags_ctx
                  (DOne scenario_entity)
                  (DOne (replace_field L0 "tags" tags_result scenario_entity))
                  tags_schema eq_refl)
           0%nat scenario_entity _ "owner" eq_refl eq_refl).
  intros H. apply list_elem_of_singleton in H. discriminate.
Defined.

Lemma populateModels_fails_with_a_call_witness :
  exists e',
    (populateModels docs_service L0 failing_ctx (DOne scenario_entity)
       (Some tags_schema)).2 = Err e'.
Proof.
  destruct (populateModels_fails_with_a_call docs_service L0 failing_ctx
              (DOne scenario_entity) tags_schema "tags" "tags.getByIds"
              (External "no such action"))
    as ((e' & a' & ids' & H & _) & _).
  - left.
  - discriminate.
  - reflexivity.
  - exists e'. exact H.
Defined.

Lemma idList_flat_and_unique_witness :
  NoDup (idList [scenario_entity; scenario_entity] "tags").
Proof.
  apply (proj2 (proj2 (idList_flat_and_unique
                         [scenario_entity; scenario_entity] "tags"))).
  repeat constructor.
Defined.

Lemma population_callbacks_commute_witness :
  exists r',
    run_jobs L0 tags_ctx [job_owner; job_tags] [scenario_entity] = Ok r'
    /\ length r' = 1%nat.
Proof.
  destruct (population_callbacks_commute L0 tags_ctx [job_tags; job_owner]
              [job_owner; job_tags] [scenario_entity]
              [replace_field L0 "owner" tags_result
                 (replace_field L0 "tags" tags_result scenario_entity)])
    as (r' & H1 & H2 & _).
  - apply perm_swap.
  - apply NoDup_cons. split; [|apply NoDup_singleton].
    intros H. apply list_elem_of_singleton in H. discriminate.
  - reflexivity.
  - exists r'. split; [exact H1 | exact H2].
Defined.

(* ===================================================================== *)
(** * Resolution: codes, lookups, results *)
(* ===================================================================== *)

Section ResolutionMore.
Context (L : library).

(** X17: codes are decoded only on a service with [hashedIdentity];
    there, with a [decodeID] that undoes the encoding, a sequence of
    codes resolves to the sequence of the identifiers they encode, the
    parameter [id] is not looked at, and [resolveModel] looks these
    identifiers up together.  Without [hashedIdentity] the code is not
    looked at. *)
Theorem resolveID_decodes_codes svc ctx :
  (s_hashedIdentity (svc_settings svc) = false ->
   resolveID svc ctx = Ok (prm_id (ctx_params ctx)))
  /\ (forall coll decode encode ids,
        s_hashedIdentity (svc_settings svc) = true ->
        collection svc = Some coll ->
        decodeID coll = Some decode ->
        (forall x, x ∈ ids -> decode (encode x) = x) ->
        prm_code (ctx_params ctx) = VArr (map encode ids) ->
        resolveID svc ctx = Ok (VArr ids)
        /\ (ids <> [] ->
            exists calls r, resolveModel svc L ctx = (EvFind ids :: calls, r))).
Proof.
  split.
  - intros Hoff. unfold resolveID. rewrite Hoff.
    by rewrite andb_false_r.
  - intros coll decode encode ids Hon Hc Hd Hinv Hcode.
    assert (Hid : resolveID svc ctx = Ok (VArr ids)).
    { unfold resolveID. rewrite Hon, Hc, Hd, Hcode. simpl. do 2 f_equal.
      clear Hcode. induction ids as [|x ids IH]; simpl; [done|].
      rewrite Hinv by left. f_equal. apply IH.
      intros y Hy. apply Hinv. by right. }
    split; [done|]. intros Hne.
    unfold resolveModel. rewrite Hid.
    assert (Hv : invalid_id L (VArr ids) = false).
    { unfold invalid_id. simpl. by destruct ids. }
    rewrite Hv, Hc. unfold lookup_docs.
    destruct (find coll ids) as [ds|e]; [|eauto].
    destruct (populate_if_asked svc L ctx (docs_of_found ds))
      as [calls [d'|e']]; eauto.
Qed.

Lemma populateModels_calls_only svc ctx d sch :
  Forall is_call (populateModels svc L ctx d sch).1.
Proof.
  unfold populateModels.
  destruct d, sch as [s|]; simpl; try constructor;
    try (destruct (s_modelPopulates (svc_settings svc)); simpl;
         try constructor);
    destruct (0 <? length _)%nat; simpl; try constructor;
    apply Forall_forall; intros ev Hev;
    apply list_elem_of_In, in_map_iff in Hev as (j & <- & _); exact I.
Qed.

Lemma populate_if_asked_calls_only svc ctx d :
  Forall is_call (populate_if_asked svc L ctx d).1
  /\ (prm_populate (ctx_params ctx) <> VBool true ->
      populate_if_asked svc L ctx d = ([], Ok d)).
Proof.
  unfold populate_if_asked.
  destruct (prm_populate (ctx_params ctx)) as [| |[|]| | | | |];
    split; try constructor; try done.
  apply populateModels_calls_only.
Qed.

Lemma lookup_docs_event coll id :
  is_lookup (lookup_docs coll id).1
  /\ forall ids, (lookup_docs coll id).1 = EvFind ids <-> id = VArr ids.
Proof.
  unfold lookup_docs. destruct id; simpl; split; try exact I;
    intros ids; split; intros H; try done; congruence.
Qed.

(** X18: a run of [resolveModel] makes at most one lookup in the store,
    and makes it before any call of an action: by membership exactly
    when the identifier is a sequence.  Calls are made only when
    [populate] is [true] itself. *)
Theorem resolveModel_one_lookup_first svc ctx :
  (resolveModel svc L ctx).1 = []
  \/ exists ev calls,
       (resolveModel svc L ctx).1 = ev :: calls
       /\ is_lookup ev
       /\ Forall is_call calls
       /\ (prm_populate (ctx_params ctx) <> VBool true -> calls = [])
       /\ (forall ids, ev = EvFind ids <-> resolveID svc ctx = Ok (VArr ids)).
Proof.
  unfold resolveModel.
  destruct (resolveID svc ctx) as [id|e]; [|by left].
  destruct (invalid_id L id); [by left|].
  destruct (collection svc) as [coll|]; [|by left].
  right.
  destruct (lookup_docs_event coll id) as [Hev Hids].
  destruct (lookup_docs coll id) as [ev [d|e]]; simpl in Hev, Hids.
  - destruct (populate_if_asked_calls_only svc ctx d) as [Hc Hp].
    destruct (populate_if_asked svc L ctx d) as [calls [d'|e']] eqn:Ep;
      simpl in Hc; exists ev, calls; (split; [done|]); (split; [done|]);
      (split; [done|]); (split; [intros Hn; by injection (Hp Hn)|]);
      intros ids; rewrite Hids; split; congruence.
  - exists ev, []. split; [done|]. split; [done|]. split; [constructor|].
    split; [done|]. intros ids. rewrite Hids. split; congruence.
Qed.

(** X19: a lookup by one identifier that finds no document is not an
    error: [resolveModel] resolves with nothing, without any call, even
    when population is asked for (with a [propFilter] it fails on
    [docs.map]).  A lookup that the store rejects rejects the run with
    the same error. *)
Theorem resolveModel_point_lookup svc ctx coll id :
  resolveID svc ctx = Ok id ->
  invalid_id L id = false ->
  isArray id = false ->
  collection svc = Some coll ->
  (findById coll id = Ok None ->
   resolveModel svc L ctx
   = ([EvFindById id],
      if is_nullish (prm_propFilter (ctx_params ctx)) then Ok RUndef
      else Err (TypeError "Cannot read property 'map' of undefined")))
  /\ (forall e, findById coll id = Err e ->
        resolveModel svc L ctx = ([EvFindById id], Err e)).
Proof.
  intros Hid Hv Harr Hc. unfold resolveModel. rewrite Hid, Hv, Hc.
  assert (Hl : lookup_docs coll id
               = (EvFindById id,
                  match findById coll id with
                  | Ok d => Ok (docs_of_one d)
                  | Err e => Err e
                  end)) by (by destruct id).
  rewrite Hl. split.
  - intros ->. simpl.
    assert (Hp : populate_if_asked svc L ctx DUndef = ([], Ok DUndef)).
    { unfold populate_if_asked.
      by destruct (prm_populate (ctx_params ctx)) as [| |[|]| | | | |]. }
    rewrite Hp. unfold shape_result.
    destruct (prm_resultAsObject (ctx_params ctx)) as [| |[|]| | | | |];
      by destruct (is_nullish _).
  - by intros e ->.
Qed.

Lemma filterProperties_nullish svc ctx doc :
  is_nullish (prm_propFilter (ctx_params ctx)) = true ->
  filterProperties svc L ctx doc = doc.
Proof. intros H. unfold filterProperties. by rewrite H. Qed.

(** X20: when the identifier is a sequence and [resultAsObject] is not
    [true] itself, [resolveModel] resolves with a sequence: one entity
    for each document found, in the order of the store, each passed
    through the property filter. *)
Theorem resolveModel_sequence svc ctx coll ids found calls es :
  resolveID svc ctx = Ok (VArr ids) ->
  ids <> [] ->
  collection svc = Some coll ->
  find coll ids = Ok found ->
  populate_if_asked svc L ctx (DMany (map doc_toJSON found))
  = (calls, Ok (DMany es)) ->
  prm_resultAsObject (ctx_params ctx) <> VBool true ->
  resolveModel svc L ctx
  = (EvFind ids :: calls, Ok (RMany (map (filterProperties svc L ctx) es)))
  /\ (prm_populate (ctx_params ctx) <> VBool true ->
      es = map doc_toJSON found /\ calls = []).
Proof.
  intros Hid Hne Hc Hf Hp Hr. split.
  - unfold resolveModel. rewrite Hid.
    assert (Hv : invalid_id L (VArr ids) = false).
    { unfold invalid_id. simpl. by destruct ids. }
    rewrite Hv, Hc. unfold lookup_docs. rewrite Hf.
    unfold docs_of_found. rewrite Hp.
    unfold shape_result.
    assert (Hs : (if negb (is_nullish (prm_propFilter (ctx_params ctx)))
                  then Ok (RMany (map (filterProperties svc L ctx) es))
                  else Ok (RMany es))
                 = Ok (RMany (map (filterProperties svc L ctx) es))).
    { destruct (is_nullish (prm_propFilter (ctx_params ctx))) eqn:E;
        simpl; [|done].
      do 2 f_equal. clear Hp.
      induction es as [|e es IH]; simpl; [done|].
      rewrite filterProperties_nullish by done. by f_equal. }
    destruct (prm_resultAsObject (ctx_params ctx)) as [| |[|]| | | | |];
      try done; by rewrite Hs.
  - intros Hn.
    destruct (populate_if_asked_calls_only svc ctx
                (DMany (map doc_toJSON found))) as [_ Hno].
    rewrite (Hno Hn) in Hp. by injection Hp as <- <-.
Qed.

End ResolutionMore.

Lemma resolveID_decodes_codes_witness :
  resolveID coded_service (ctx_of params_codes) = Ok (VArr [VNum 1; VNum 2]).
Proof.
  apply (proj2 (resolveID_decodes_codes L0 coded_service (ctx_of params_codes))
           coded_store decode_id encode_id [VNum 1; VNum 2]
           eq_refl eq_refl eq_refl); [|reflexivity].
  intros x _. reflexivity.
Defined.

Lemma resolveModel_one_lookup_first_witness :
  (resolveModel posts_service L0 (ctx_of params_posts)).1
  = [EvFind [VNum 1; VNum 2]].
Proof.
  destruct (resolveModel_one_lookup_first L0 posts_service (ctx_of params_posts))
    as [H|(ev & calls & H & _ & _ & Hc & _)].
  - discriminate H.
  - rewrite (Hc ltac:(discriminate)) in H. rewrite H.
    injection H as <-. reflexivity.
Defined.

Lemma resolveModel_point_lookup_witness :
  resolveModel docs_store_service L0 (ctx_of (params_id (VStr "zz")))
  = ([EvFindById (VStr "zz")], Ok RUndef).
Proof.
  exact (proj1 (resolveModel_point_lookup L0 docs_store_service
                  (ctx_of (params_id (VStr "zz")))
                  (store_of [scenario_entity]) (VStr "zz")
                  eq_refl eq_refl eq_refl eq_refl) eq_refl).
Defined.

Lemma resolveModel_sequence_witness :
  resolveModel posts_service L0 (ctx_of (params_id (VArr [VNum 2; VNum 1])))
  = ([EvFind [VNum 2; VNum 1]], Ok (RMany [post_1; post_1'; post_2])).
Proof.
  refine (proj1 (resolveModel_sequence L0 posts_service
                   (ctx_of (params_id (VArr [VNum 2; VNum 1])))
                   (store_of [post_1; post_1'; post_2]) [VNum 2; VNum 1]
                   (map Model [post_1; post_1'; post_2]) []
                   [post_1; post_1'; post_2]
                   eq_refl _ eq_refl eq_refl eq_refl _)); discriminate.
Defined.

(* ===================================================================== *)
(** * The service loader: requests over the socket and the query protocol *)
(* ===================================================================== *)

(** The stages run, as far as they go. *)
Lemma run_stages_spec (s : Stages) :
  run_stages s
  = (PResolveModel
       :: match st_resolveModel s with
          | Err _ => []
          | Ok _ =>
              PCheckPermission
                :: match st_checkPermission s with
                   | Err _ => []
                   | Ok _ => [PHandler]
                   end
          end,
     stages_outcome s).
Proof.
  unfold run_stages, stages_outcome, p_then.
  destruct (st_resolveModel s) as [[]|e1]; simpl; [|done].
  destruct (st_checkPermission s) as [[]|e2]; simpl; [|done].
  by destruct (st_handler s).
Qed.

(** X21: over both transports a request runs the same stages in the same
    order: the model is resolved, then the permission is checked, then
    the handler of the action is called.  The handler is called exactly
    when the two stages before it succeed, and the outcome is the first
    failure or else what the handler gives. *)
Theorem handler_runs_after_checks (s : Stages) (has_callback : bool) :
  let log := (run_stages s).1 in
  (run_stages s).2 = stages_outcome s
  /\ log `prefix_of` [PResolveModel; PCheckPermission; PHandler]
  /\ (PHandler ∈ log
      <-> st_resolveModel s = Ok tt /\ st_checkPermission s = Ok tt)
  /\ (exists tail, (socket_request s has_callback).1
                   = (PEmit "request" :: log ++ tail)%list)
  /\ (exists tail, (graphql_request s).1
                   = (PEmit "request" :: log ++ tail)%list).
Proof.
  intros log. subst log. unfold socket_request, graphql_request.
  rewrite run_stages_spec. unfold stages_outcome, p_then, p_catch.
  destruct (st_resolveModel s) as [[]|e1];
    [destruct (st_checkPermission s) as [[]|e2];
     [destruct (st_handler s) as [j|e3]|]|];
    simpl; (split; [done|]); (split; [|split; [|split]]);
    try (by eexists; eauto); try (eexists; reflexivity).
  all: try (split;
            [ intros H; repeat (apply elem_of_cons in H as [H|H]; try done);
              by apply elem_of_nil in H
            | try (by intros [? ?]);
              intros _; do 2 right; left ]).
Qed.

(** X22: the handler of a socket event never rejects: whatever the
    stages come to, the callback is called exactly once, with their
    outcome (an error is logged first), and the event [response] is
    emitted after it, last of all.  Without a callback nothing is
    answered. *)
Theorem socket_request_answers_once (s : Stages) (has_callback : bool) :
  (socket_request s has_callback).2 = Ok tt
  /\ callbacks (socket_request s has_callback).1
     = (if has_callback then [stages_outcome s] else [])
  /\ emitted (socket_request s has_callback).1 = ["request"; "response"]
  /\ last (socket_request s has_callback).1 = Some (PEmit "response")
  /\ (forall e, PLogError e ∈ (socket_request s has_callback).1
                <-> stages_outcome s = Err e).
Proof.
  unfold socket_request. rewrite run_stages_spec.
  unfold stages_outcome, p_then, p_catch, callbacks, emitted.
  destruct (st_resolveModel s) as [[]|e1];
    [destruct (st_checkPermission s) as [[]|e2];
     [destruct (st_handler s) as [j|e3]|]|];
    destruct has_callback; simpl; repeat split; try done.
  all: try (intros H; repeat (apply elem_of_cons in H as [H|H]; try done);
            try (by apply elem_of_nil in H); congruence).
  all: intros [= <-]; repeat first [left | right].
Qed.

(** X23: the resolver bound to an action resolves with what the handler
    gives and emits [response] only then; when a stage fails the error
    is logged and thrown again as it is, and [response] is never
    emitted. *)
Theorem graphql_request_rethrows (s : Stages) :
  (graphql_request s).2 = stages_outcome s
  /\ (forall json, stages_outcome s = Ok json ->
        emitted (graphql_request s).1 = ["request"; "response"]
        /\ forall e, PLogError e ∉ (graphql_request s).1)
  /\ (forall e, stages_outcome s = Err e ->
        emitted (graphql_request s).1 = ["request"]
        /\ last (graphql_request s).1 = Some (PLogError e)).
Proof.
  unfold graphql_request. rewrite run_stages_spec.
  unfold stages_outcome, p_then, p_catch, emitted.
  destruct (st_resolveModel s) as [[]|e1];
    [destruct (st_checkPermission s) as [[]|e2];
     [destruct (st_handler s) as [j|e3]|]|];
    simpl; repeat split; try done.
  all: try (intros e' Hin;
            repeat (apply elem_of_cons in Hin as [Hin|Hin]; try done);
            by apply elem_of_nil in Hin).
  all: congruence.
Qed.

(* The events bound on a socket. *)

(** X24: on a connection every action of a service is bound under
    [/{namespace}/{name}], by the name in its settings, and, when the
    service has a version other than 0, under [/v{version}] followed by
    that path as well; nothing else is bound, and nothing at all for a
    service whose [ws] is [false]. *)
Theorem socket_events_per_action (svc : LoadedService) :
  (ls_ws svc = VBool false -> service_events svc = [])
  /\ (ls_ws svc <> VBool false ->
      length (service_events svc)
      = ((if version_truthy (ls_version svc) then 2 else 1)
         * length (ls_actions svc))%nat
      /\ forall ev,
          ev ∈ service_events svc
          <-> exists k a,
                (k, a) ∈ ls_actions svc
                /\ (ev = "/" ++ ls_namespace svc ++ "/" ++ a
                    \/ exists v, ls_version svc = Some v /\ v <> 0%Z
                         /\ ev = "/v" ++ pretty v ++ "/" ++ ls_namespace svc
                                   ++ "/" ++ a)).
Proof.
  split; [intros H; unfold service_events; by rewrite H|].
  intros Hws.
  assert (He : service_events svc
               = flat_map (fun a => action_events svc a.2) (ls_actions svc)).
  { unfold service_events. by destruct (ls_ws svc) as [| |[|]| | | | |]. }
  rewrite He. clear He. split.
  - assert (Hone : forall a, length (action_events svc a)
                               = if version_truthy (ls_version svc)
                                 then 2%nat else 1%nat).
    { intros a. unfold action_events.
      by destruct (version_truthy (ls_version svc)). }
    induction (ls_actions svc) as [|[k a] l IH]; simpl; [lia|].
    rewrite length_app, IH, Hone.
    destruct (version_truthy (ls_version svc)); lia.
  - intros ev. rewrite list_elem_of_In, in_flat_map. split.
    + intros ((k & a) & Hin & Hev). exists k, a.
      split; [by apply list_elem_of_In|]. simpl in Hev.
      unfold action_events in Hev.
      destruct (ls_version svc) as [v|] eqn:Ev; simpl in Hev.
      * destruct (v =? 0)%Z eqn:E0; simpl in Hev.
        -- destruct Hev as [<-|[]]. by left.
        -- destruct Hev as [<-|[<-|[]]]; [by left|]. right.
           exists v. split; [done|]. split; [|done].
           by apply Z.eqb_neq.
      * destruct Hev as [<-|[]]. by left.
    + intros (k & a & Hin & Hev). exists (k, a).
      split; [by apply list_elem_of_In|]. simpl. unfold action_events.
      destruct Hev as [->|(v & Hv & Hne & ->)].
      * destruct (version_truthy (ls_version svc)); left; done.
      * rewrite Hv. simpl. apply Z.eqb_neq in Hne. rewrite Hne. simpl.
        right. left. done.
Qed.

(* The resolvers of the query protocol. *)

(** X25: [processResolvers] keeps the bindings of a root, their names
    and their order, and binds to a handler exactly the bindings under
    [Query] or [Mutation] whose string names something that
    [service.actions] holds, an action of the service or an inherited
    member; every other binding, a string that names nothing there, a
    function, and every binding under another root, stays as it was
    declared. *)
Theorem process_root_binds_named_actions (service : string)
    (actions : list (string * string)) (inherited : string -> bool)
    (root : string * list (string * resolver)) :
  let processed := process_root service actions inherited root in
  let bound a :=
    (root.1 = "Query" \/ root.1 = "Mutation")
    /\ ((exists settings_name, (a, settings_name) ∈ actions)
        \/ inherited a = true) in
  processed.1 = root.1
  /\ map fst processed.2 = map fst root.2
  /\ (forall b s a,
        (b, BHandler s a) ∈ processed.2
        <-> s = service /\ (b, RAction a) ∈ root.2 /\ bound a)
  /\ Forall2
       (fun declared after =>
          after.1 = declared.1
          /\ ((exists a, declared.2 = RAction a /\ bound a
                         /\ after.2 = BHandler service a)
              \/ ((forall a, declared.2 = RAction a -> ~ bound a)
                  /\ after.2 = BDeclared declared.2)))
       root.2 processed.2.
Proof.
  intros processed bound. subst processed bound. unfold process_root. simpl.
  assert (Hex : forall a,
             existsb (fun e : string * string => String.eqb e.1 a) actions
             || inherited a = true
             <-> (exists n, (a, n) ∈ actions) \/ inherited a = true).
  { intros a. rewrite orb_true_iff, existsb_exists.
    split; (intros [H|H]; [left | by right]).
    - destruct H as ((k & n) & Hin & Hk). simpl in Hk.
      apply String.eqb_eq in Hk. subst k. exists n.
      by apply list_elem_of_In.
    - destruct H as (n & Hin). exists (a, n).
      split; [by apply list_elem_of_In | apply String.eqb_refl]. }
  assert (Hroot : String.eqb root.1 "Query" || String.eqb root.1 "Mutation"
                  = true
                  <-> root.1 = "Query" \/ root.1 = "Mutation").
  { rewrite orb_true_iff, !String.eqb_eq. done. }
  split; [done|]. split; [|split].
  - destruct (_ || _); induction root.2 as [|[b r] l IH]; simpl;
      try done; by rewrite IH.
  - intros b s a.
    destruct (String.eqb root.1 "Query" || String.eqb root.1 "Mutation").
    + rewrite list_elem_of_In, in_map_iff. split.
      * intros ((b' & r) & Heq & Hin). simpl in Heq.
        unfold process_resolver in Heq. destruct r as [a'|f]; [|done].
        destruct (existsb (fun e : string * string => String.eqb e.1 a')
                    actions || inherited a') eqn:E; [|done].
        injection Heq as -> -> ->.
        split; [done|]. split; [by apply list_elem_of_In|].
        split; [by apply Hroot | by apply Hex].
      * intros (-> & Hin & _ & Ha). exists (b, RAction a).
        split; [|by apply list_elem_of_In]. simpl.
        apply Hex in Ha. by rewrite Ha.
    + split.
      * intros Hin. apply list_elem_of_In, in_map_iff in Hin
          as ((b' & r) & Heq & _). done.
      * intros (_ & _ & Hr & _). apply Hroot in Hr. done.
  - destruct (String.eqb root.1 "Query" || String.eqb root.1 "Mutation")
      eqn:Er.
    + induction root.2 as [|[b r] l IH]; simpl; constructor; [|exact IH].
      simpl. split; [done|]. destruct r as [a|f]; simpl.
      * destruct (existsb (fun e : string * string => String.eqb e.1 a)
                    actions || inherited a) eqn:E.
        -- left. exists a. split; [done|].
           split; [|done]. split; [by apply Hroot | by apply Hex].
        -- right. split; [|done]. intros a' [= <-] [_ Ha].
           apply Hex in Ha. congruence.
      * right. split; [|done]. intros a' Ha'. done.
    + induction root.2 as [|[b r] l IH]; simpl; constructor; [|exact IH].
      simpl. split; [done|]. right. split; [|done].
      intros a _ [Hr _]. apply Hroot in Hr. done.
Qed.

Lemma handler_runs_after_checks_witness :
  (run_stages refused).1 = [PResolveModel; PCheckPermission]
  /\ ~ PHandler ∈ (run_stages refused).1.
Proof.
  destruct (handler_runs_after_checks refused true) as (_ & _ & H & _).
  split; [reflexivity|]. intros Hin. apply H in Hin as [_ Hc]. discriminate.
Defined.

Lemma graphql_request_rethrows_witness :
  emitted (graphql_request refused).1 = ["request"].
Proof.
  exact (proj1 (proj2 (proj2 (graphql_request_rethrows refused)) _ eq_refl)).
Defined.

Lemma socket_events_per_action_witness :
  length (service_events loaded_session) = 4%nat
  /\ "/v1/session/me" ∈ service_events loaded_session.
Proof.
  destruct (proj2 (socket_events_per_action loaded_session)) as [Hlen Hin].
  - discriminate.
  - split; [exact Hlen|]. apply Hin. exists "me", "me". split; [left|].
    right. exists 1%Z. split; [reflexivity|]. split; [discriminate|].
    reflexivity.
Defined.
